(** * redux-ui-state: keyed UI state in a shared store

    A shallow embedding of [utils.ts] (identity resolution, the selector
    chain, the dispatch selector, the connect helpers and [merge])
    together with the reducer that applies the mutation action.

    JavaScript objects live in a store addressed by references, so that
    "same object" and "fresh object" are statements about references.
    An object has its own enumerable data properties and a prototype;
    property reads walk the prototype chain up to [Object.prototype], and
    property writes go through the [__proto__] setter that
    [Object.prototype] provides.  Thrown exceptions and [console.warn]
    are explicit in the result type of every function that can raise or
    log. *)

From stdpp Require Import base gmap strings list fin_maps pretty.

(** ** Values and the object store *)

Abbreviation loc := positive.

(** Data values.  Numbers stand for the integer-valued doubles that print
    in plain decimal notation.  [VBuiltin] is a built-in object of the
    realm, named by its path: [Object.prototype] and the functions it
    holds.  The functions that the program itself calls are kept apart
    (see [jsval]). *)
Inductive value : Type :=
| VUndefined
| VNull
| VBool (b : bool)
| VNumber (n : Z)
| VString (s : string)
| VObject (l : loc)
| VBuiltin (name : string).

#[global] Instance value_eq_dec : EqDecision value.
Proof. solve_decision. Defined.

#[global] Instance value_inhabited : Inhabited value := populate VUndefined.

Abbreviation object := (gmap string value).

(** [Object.prototype], the prototype of every object literal. *)
Definition ObjectPrototype : value := VBuiltin "Object.prototype".

(** The store: the own enumerable data properties of every object, and
    the prototype of the objects whose prototype is not
    [Object.prototype]. *)
Record heap : Type := Heap {
  objects : gmap loc (gmap string value);
  protos : gmap loc value;
}.

(** [Object.getPrototypeOf] on an object of the store. *)
Definition proto_of (h : heap) (l : loc) : value :=
  default ObjectPrototype (protos h !! l).

(** A value as a prop can hold it: data, or a function of type [F].  A
    prop that can be called is always a [Func]. *)
Inductive jsval (F : Type) : Type :=
| Data (v : value)
| Func (f : F).
Arguments Data {F} v.
Arguments Func {F} f.

(** [ToBoolean]: undefined, null, false, 0 and the empty string are falsy. *)
Definition toBoolean (v : value) : bool :=
  match v with
  | VUndefined | VNull => false
  | VBool b => b
  | VNumber n => negb (n =? 0)%Z
  | VString s => negb (String.eqb s "")
  | VObject _ | VBuiltin _ => true
  end.

(** Every function is truthy. *)
Definition truthy {F} (x : jsval F) : bool :=
  match x with
  | Data v => toBoolean v
  | Func _ => true
  end.

(** [ToString], as used for property keys and template literals, on the
    values an id can be; the text of a built-in function is the one that
    V8 prints. *)
Definition toString (v : value) : string :=
  match v with
  | VUndefined => "undefined"
  | VNull => "null"
  | VBool true => "true"
  | VBool false => "false"
  | VNumber n => pretty n
  | VString s => s
  | VObject _ => "[object Object]"
  | VBuiltin name =>
      if String.eqb name "Object.prototype" then "[object Object]"
      else "function " ++ name ++ "() { [native code] }"
  end.

(** [typeof v === 'string'] on data. *)
Definition isString (v : value) : bool :=
  match v with VString _ => true | _ => false end.

(** What the [__proto__] setter accepts as a prototype: an object or
    [null]. *)
Definition isObjectOrNull (v : value) : bool :=
  match v with VObject _ | VBuiltin _ | VNull => true | _ => false end.

(** The indexed characters of a string primitive seen as an object. *)
Definition string_chars (s : string) : gmap string value :=
  list_to_map
    (imap (λ i c, (pretty i, VString (String c EmptyString)))
          (String.list_ascii_of_string s)).

(** The own enumerable properties that [Object.assign] copies from a
    source: the record of an object, the characters of a string, nothing
    for the other primitives and for the built-in objects. *)
Definition ownEnumerable (h : heap) (v : value) : gmap string value :=
  match v with
  | VObject l => default ∅ (objects h !! l)
  | VString s => string_chars s
  | _ => ∅
  end.

(** ** The prototype chain *)

(** The data properties of [Object.prototype]; [constructor] is the
    function [Object]. *)
Definition objectPrototypeMethods : list string :=
  [ "__defineGetter__"; "__defineSetter__"; "hasOwnProperty";
    "__lookupGetter__"; "__lookupSetter__"; "isPrototypeOf";
    "propertyIsEnumerable"; "toString"; "valueOf"; "toLocaleString" ].

(** What a lookup along a prototype chain finds: a data property, the
    [__proto__] accessor of [Object.prototype], or nothing. *)
Inductive found : Type :=
| FoundData (v : value)
| FoundProtoAccessor
| NotFound.

(** The properties of [Object.prototype]. *)
Definition objectPrototype_lookup (k : string) : found :=
  if String.eqb k "__proto__" then FoundProtoAccessor
  else if String.eqb k "constructor" then FoundData (VBuiltin "Object")
  else if bool_decide (k ∈ objectPrototypeMethods)
       then FoundData (VBuiltin ("Object.prototype." ++ k))
  else NotFound.

(** The lookup of [k] from [v] upwards.  A chain in the store ends at a
    built-in object or at [null]; the own properties of the built-in
    functions are not modelled, they inherit from [Object.prototype]
    like every built-in object.  The fuel bounds the number of objects
    of the store that are visited. *)
Fixpoint chain_lookup (fuel : nat) (h : heap) (v : value) (k : string) : found :=
  match v with
  | VObject l =>
      match fuel with
      | O => NotFound
      | S n =>
          match objects h !! l with
          | Some o =>
              match o !! k with
              | Some x => FoundData x
              | None => chain_lookup n h (proto_of h l) k
              end
          | None => NotFound
          end
      end
  | VBuiltin _ => objectPrototype_lookup k
  | _ => NotFound
  end.

(** Enough fuel for every chain of a store without cycles. *)
Definition chain_fuel (h : heap) : nat := S (size (objects h)).

(** Allocation of a new object at an unused reference, with prototype
    [Object.prototype]. *)
Definition alloc (h : heap) (o : gmap string value) : heap * loc :=
  let l := fresh (dom (objects h)) in
  (Heap (<[l := o]> (objects h)) (delete l (protos h)), l).

(** The write of an own data property. *)
Definition define_prop (to : loc) (k : string) (v : value) (h : heap) : heap :=
  Heap (alter (insert k v) to (objects h)) (protos h).

(** The [__proto__] setter of [Object.prototype] on an object of the
    store: an object or [null] becomes its prototype, any other value is
    ignored.  The cycle check of the setter is left out: it cannot fail
    on the new object that [merge] writes to, which nothing refers to. *)
Definition proto_setter (to : loc) (v : value) (h : heap) : heap :=
  if isObjectOrNull v then Heap (objects h) (<[to := v]> (protos h)) else h.

(** [target[k] = v] on an object of the store: an own property is
    overwritten; otherwise the prototype chain decides, a data property
    or nothing up there makes the write an own property of the target,
    the [__proto__] accessor calls the setter. *)
Definition set_prop (to : loc) (k : string) (v : value) (h : heap) : heap :=
  match default ∅ (objects h !! to) !! k with
  | Some _ => define_prop to k v h
  | None =>
      match chain_lookup (chain_fuel h) h (proto_of h to) k with
      | FoundProtoAccessor => proto_setter to v h
      | FoundData _ | NotFound => define_prop to k v h
      end
  end.

(** One source of [Object.assign]: its properties are read, then written
    to the target one by one. *)
Definition assign_from (to : loc) (h : heap) (src : value) : heap :=
  map_fold (λ k v acc, set_prop to k v acc) h (ownEnumerable h src).

(** [Object.assign(target, ...sources)]: sources are processed from left
    to right, so a later source overwrites an earlier one. *)
Definition Object_assign (h : heap) (to : loc) (sources : list value) : heap :=
  foldl (assign_from to) h sources.

(** ** utils.ts: merge *)

(** [merge = (obj1, obj2) => Object.assign({}, obj1, obj2)] *)
Definition merge (h : heap) (obj1 obj2 : value) : heap * value :=
  let '(h0, to) := alloc h ∅ in
  (Object_assign h0 to [obj1; obj2], VObject to).

(** The object literal [{...S, ...P}] on records: the fields of [P] over
    those of [S]. *)
Definition spread (S P : gmap string value) : gmap string value := P ∪ S.

(** ** Exceptions and console output *)

Inductive error : Type :=
| Error (message : string)
| TypeError.

Inductive outcome (A : Type) : Type :=
| Return (a : A)
| Throw (e : error).
Arguments Return {A} a.
Arguments Throw {A} e.

(** A computation: what it wrote to the console, and how it ended. *)
Record M (A : Type) : Type := Run { console : list string; result : outcome A }.
Arguments Run {A} console result.
Arguments console {A} m.
Arguments result {A} m.

#[global] Instance M_ret : MRet M := λ A a, Run [] (Return a).

#[global] Instance M_bind : MBind M := λ A B k m,
  match result m with
  | Return a => Run (console m ++ console (k a)) (result (k a))
  | Throw e => Run (console m) (Throw e)
  end.

Definition throw {A} (e : error) : M A := Run [] (Throw e).

Definition console_warn (message : string) : M unit := Run [message] (Return tt).

Definition throws {A} (m : M A) : bool :=
  match result m with Throw _ => true | Return _ => false end.

(** ** Property access *)

(** [s[k]] on a string primitive: its length and its characters. *)
Definition string_get (s : string) (k : string) : value :=
  if String.eqb k "length" then VNumber (Z.of_nat (String.length s))
  else default VUndefined (string_chars s !! k).

(** The value that a read finds on an object of the store: its own
    property, else what the prototype chain gives; the [__proto__]
    accessor returns the prototype of the object. *)
Definition lookup_prop (h : heap) (l : loc) (k : string) : value :=
  match chain_lookup (chain_fuel h) h (VObject l) k with
  | FoundData x => x
  | FoundProtoAccessor => proto_of h l
  | NotFound => VUndefined
  end.

(** The value that a read finds on a built-in object; the prototype of
    [Object.prototype] is [null]. *)
Definition builtin_prop (name : string) (k : string) : value :=
  match objectPrototype_lookup k with
  | FoundData x => x
  | FoundProtoAccessor =>
      if String.eqb name "Object.prototype" then VNull
      else if String.eqb name "Function.prototype" then ObjectPrototype
      else VBuiltin "Function.prototype"
  | NotFound => VUndefined
  end.

(** [v[k]]: a [TypeError] on undefined and null; on an object the own
    property or the one inherited along the prototype chain,
    [undefined] where there is none.  What a primitive inherits from its
    wrapper prototype is not modelled: a string has its length and its
    characters, a boolean or a number has nothing. *)
Definition get (h : heap) (v : value) (k : string) : M value :=
  match v with
  | VUndefined | VNull => throw TypeError
  | VObject l => mret (lookup_prop h l k)
  | VBuiltin name => mret (builtin_prop name k)
  | VString s => mret (string_get s k)
  | VBool _ | VNumber _ => mret VUndefined
  end.

(** ** utils.ts: ids *)

Inductive jstype : Type :=
| TUndefined | TObject | TBoolean | TNumber | TString | TFunction.

#[global] Instance jstype_eq_dec : EqDecision jstype.
Proof. solve_decision. Defined.

Definition typeof {F} (x : jsval F) : jstype :=
  match x with
  | Data VUndefined => TUndefined
  | Data VNull => TObject
  | Data (VBool _) => TBoolean
  | Data (VNumber _) => TNumber
  | Data (VString _) => TString
  | Data (VObject _) => TObject
  | Data (VBuiltin _) => TObject
  | Func _ => TFunction
  end.

(** [IdFunction<TProps> = (props: TProps) => string]; at run time the
    function may return any data value, [undefined] included. *)
Definition IdFunction (TProps : Type) : Type := TProps → value.

(** [Id<TProps> = string | IdFunction<TProps>], with the values the run
    time does not exclude. *)
Definition Id (TProps : Type) : Type := jsval (IdFunction TProps).

(** [UIStateBranchSelector]: from the application state to the branch. *)
Definition UIStateBranchSelector : Type := heap → value → M value.

(** [interface UIStateIdProps<TProps>] and
    [interface UIStateBranchSelectorSelectorProps]: what the selectors read
    from the props of a component. *)
Class UIStateProps (TProps : Type) : Type := {
  props_uiStateId : TProps → Id TProps;
  props_uiStateBranchSelector : TProps → jsval UIStateBranchSelector;
}.

Definition idIsString {F} (id : jsval F) : bool :=
  bool_decide (typeof id = TString).

Definition idIsFunction {F} (id : jsval F) : bool :=
  bool_decide (typeof id = TFunction).

(** The data behind a value narrowed to a non-function. *)
Definition as_data {F} (x : jsval F) : value :=
  match x with Data v => v | Func _ => VUndefined end.

(** The call [f(a)] of a value narrowed to a function. *)
Definition apply_fn {A} (x : jsval (A → value)) (a : A) : value :=
  match x with Func f => f a | Data _ => VUndefined end.

Definition getStringFromId {TProps} (id : Id TProps) (props : TProps) : value :=
  if idIsString id then as_data id
  else if idIsFunction id then apply_fn id props
  else VUndefined.

(** ** actions.ts *)

(** The payload [{ id, state }] of the mutation action. *)
Record SetUIStatePayload : Type :=
  { payload_id : value; payload_state : value }.

Inductive Action : Type :=
| SET_UI_STATE (payload : SetUIStatePayload)
| OtherAction (type : string).

(** Modelled from the spec: the action creator [setUIState] of
    [actions.ts], which is imported by [utils.ts] but not part of the
    sources at hand.  It builds the mutation action
    [{ kind: SET_STATE, payload: { id, state } }]. *)
Definition setUIState (payload : SetUIStatePayload) : Action :=
  SET_UI_STATE payload.

(** ** reselect *)

(** [createSelector(dependency, resultFunc)] and
    [createSelector(dependency1, dependency2, resultFunc)]: the
    dependencies are evaluated in order on [(state, props)] and their
    values handed to the result function.  The one-entry cache of the
    library, which skips a stage whose inputs are the very same
    references as in the previous call, is not modelled: the selectors
    below are given as what a stage computes when it runs. *)
Definition createSelector1 {S P A R}
    (dependency : S → P → M A) (resultFunc : A → M R) : S → P → M R :=
  λ state props, a ← dependency state props; resultFunc a.

Definition createSelector2 {S P A B R}
    (dependency1 : S → P → M A) (dependency2 : S → P → M B)
    (resultFunc : A → B → M R) : S → P → M R :=
  λ state props,
    a ← dependency1 state props;
    b ← dependency2 state props;
    resultFunc a b.

(** ** utils.ts: selectors *)

Definition branch_error_message : string :=
  "redux-ui-state Could not select UI state branch from the store - this is either because the reducer has not" ++
  "been composed properly or the selector is looking in the wrong location.".

Definition id_error_message : string :=
  "Couldn't find uiStateId prop for idSelector in Redux UI State - this usually occurs because the id passed " ++
  "into connectReduxUIState is undefined, or the uiStateId prop being passed into a component is undefined.".

Definition newline : string := String (Ascii.ascii_of_nat 10) EmptyString.

Definition undefined_state_warning (id : value) : string :=
  "redux-ui-state uiStateSelector found undefined state for key: " ++ toString id ++ "." ++ newline ++
  "This is most often due to the value not being initialized in createReducer.".

(** [a || b] *)
Definition js_or {F} (a b : jsval F) : jsval F := if truthy a then a else b.

(** [props && props.x], where [None] is a selector called without props. *)
Definition props_and {TProps F} (props : option TProps) (x : TProps → jsval F) : jsval F :=
  match props with
  | None => Data VUndefined
  | Some p => x p
  end.

Section Selectors.
Context {TProps : Type} `{!UIStateProps TProps}.

(** The constant of [constants.ts], which is not part of the sources at
    hand: the top-level key of the branch in the store. *)
Variable DEFAULT_BRANCH_NAME : string.

(** The object store in which the state tree lives. *)
Variable h : heap.

Definition stateSelector (state : value) (props : option TProps) : M value :=
  mret state.

Definition propsSelector (_ : value) (props : option TProps) : M (option TProps) :=
  mret props.

Definition defaultUIStateBranchSelector : UIStateBranchSelector :=
  λ store state, get store state DEFAULT_BRANCH_NAME.

Definition uiStateBranchSelectorSelector
    (_ : value) (props : option TProps) : jsval UIStateBranchSelector :=
  js_or (props_and props props_uiStateBranchSelector)
        (Func defaultUIStateBranchSelector).

(** The result function of [uiStateBranchSelector]. *)
Definition selectBranch
    (selector : jsval UIStateBranchSelector) (state : value) : M value :=
  branch ← match selector with
           | Func f => f h state
           | Data _ => throw TypeError
           end;
  if negb (toBoolean branch) then throw (Error branch_error_message)
  else mret branch.

Definition uiStateBranchSelector : value → option TProps → M value :=
  createSelector2
    (λ state props, mret (uiStateBranchSelectorSelector state props))
    stateSelector
    selectBranch.

Definition uiStateComponentsSelector : value → option TProps → M value :=
  createSelector1
    uiStateBranchSelector
    (λ uiStateBranch, get h uiStateBranch "components").

Definition idSelector (_ : value) (props : option TProps) : M value :=
  match props with
  | None => throw TypeError
  | Some p =>
      if negb (truthy (props_uiStateId p)) then throw (Error id_error_message)
      else mret (getStringFromId (props_uiStateId p) p)
  end.

(** The result function of [uiStateSelector]. *)
Definition selectUIState (components : value) (id : value) : M value :=
  uiState ← get h components (toString id);
  _ ← (if negb (toBoolean uiState)
       then console_warn (undefined_state_warning id)
       else mret tt);
  mret uiState.

Definition uiStateSelector : value → option TProps → M value :=
  createSelector2 uiStateComponentsSelector idSelector selectUIState.

(** [setUIStateSelector(dispatch, props)] is the setter
    [state => dispatch(setUIState({ id: idSelector(undefined, props), state }))].
    [D] is what a call of [dispatch] amounts to: the setter either ends
    in one such call, or throws before reaching it. *)
Definition setUIStateSelector {D : Type}
    (dispatch : Action → D) (props : option TProps) : value → M D :=
  λ state,
    i ← idSelector VUndefined props;
    mret (dispatch (setUIState {| payload_id := i; payload_state := state |})).

End Selectors.

(** ** reducer.ts *)

(** The own property [v.k] of an object of the store. *)
Definition own (h : heap) (v : value) (k : string) : value :=
  match v with
  | VObject l => default VUndefined (default ∅ (objects h !! l) !! k)
  | _ => VUndefined
  end.

(** Modelled from the spec: the branch [{ components: {} }] that the
    reducer of [reducer.ts] produces when it is invoked with no prior
    branch. *)
Definition initialBranch (h : heap) : heap * value :=
  let '(h1, lc) := alloc h ∅ in
  let '(h2, lb) := alloc h1 {[ "components" := VObject lc ]} in
  (h2, VObject lb).

(** Modelled from the spec: in the reducer of [reducer.ts] an absent
    prior entry is taken to be [{}]. *)
Definition priorEntry (h : heap) (prior : value) : heap * value :=
  match prior with
  | VUndefined => let '(h1, l) := alloc h ∅ in (h1, VObject l)
  | _ => (h, prior)
  end.

(** Modelled from the spec: the reducer of [reducer.ts], which is not part
    of the sources at hand.  Invoked with no prior branch it starts from
    [{ components: {} }].  On the mutation action it locates
    [branch.components[id]], takes an absent prior value as [{}], computes
    the shallow merge of the prior value and [action.payload.state], and
    produces a new branch with that key's entry replaced; the input branch
    is not written to.  On any other action it returns the branch it was
    given. *)
Definition reduce (h : heap) (branch : value) (action : Action) : heap * value :=
  let '(h0, branch) :=
    match branch with
    | VUndefined => initialBranch h
    | _ => (h, branch)
    end in
  match action with
  | SET_UI_STATE payload =>
      let key := toString (payload_id payload) in
      let components := own h0 branch "components" in
      let '(h1, prior) := priorEntry h0 (own h0 components key) in
      let '(h2, entry) := merge h1 prior (payload_state payload) in
      let '(h3, lc) := alloc h2 (<[key := entry]> (ownEnumerable h2 components)) in
      let '(h4, lb) :=
        alloc h3 (<["components" := VObject lc]> (ownEnumerable h3 branch)) in
      (h4, VObject lb)
  | OtherAction _ => (h0, branch)
  end.

(** ** Dispatch that records *)

(** A dispatch capability that appends the action to a log. *)
Definition recordingDispatch (action : Action) : list Action → list Action :=
  λ log, log ++ [action].

(** The actions that a computation ending in calls of [recordingDispatch]
    has dispatched. *)
Definition dispatched (m : M (list Action → list Action)) : list Action :=
  match result m with
  | Return d => d []
  | Throw _ => []
  end.

(** An id that did not resolve: [undefined] or the empty string. *)
Definition unresolved (v : value) : bool :=
  match v with
  | VUndefined => true
  | VString s => String.eqb s ""
  | _ => false
  end.

(** ** A sample store and sample components *)

(** Props of a component wrapped either with a literal id
    ([sample_uiStateId = Some v]) or with the id function
    [props => props.key] ([sample_uiStateId = None]). *)
Record SampleProps : Type := {
  sample_uiStateId : option value;
  sample_key : value;
  sample_uiStateBranchSelector : jsval UIStateBranchSelector;
}.

#[global] Instance SampleProps_UIStateProps : UIStateProps SampleProps := {|
  props_uiStateId p :=
    match sample_uiStateId p with
    | Some v => Data v
    | None => Func sample_key
    end;
  props_uiStateBranchSelector := sample_uiStateBranchSelector;
|}.

Definition literalId (v : value) : SampleProps :=
  {| sample_uiStateId := Some v; sample_key := VUndefined;
     sample_uiStateBranchSelector := Data VUndefined |}.

Definition keyedId (k : value) : SampleProps :=
  {| sample_uiStateId := None; sample_key := k;
     sample_uiStateBranchSelector := Data VUndefined |}.

(** [state => state.ui] *)
Definition uiLocator : UIStateBranchSelector :=
  λ store state, get store state "ui".

Definition locatedId (v : value) : SampleProps :=
  {| sample_uiStateId := Some v; sample_key := VUndefined;
     sample_uiStateBranchSelector := Func uiLocator |}.

(** The store
    [{ uiState: { components: { a: { count: 0, label: "x" }, b: { count: 7 } } } }]
    at reference 1, the partial update [{ count: 1 }] at reference 6 and a
    state tree without branch, [{}], at reference 7. *)
Definition sampleHeap : heap :=
  Heap
  {[ 1%positive := {[ "uiState" := VObject 2 ]};
     2%positive := {[ "components" := VObject 3 ]};
     3%positive := {[ "a" := VObject 4; "b" := VObject 5 ]};
     4%positive := {[ "count" := VNumber 0; "label" := VString "x" ]};
     5%positive := {[ "count" := VNumber 7 ]};
     6%positive := {[ "count" := VNumber 1 ]};
     7%positive := ∅ ]}
  ∅.

(** A store with a state object that has an own [__proto__] property,
    [{ "__proto__": 5, count: 0 }] as [JSON.parse] builds it, at
    reference 1, and the partial update [{ count: 1 }] at reference 2. *)
Definition protoHeap : heap :=
  Heap
  {[ 1%positive := {[ "__proto__" := VNumber 5; "count" := VNumber 0 ]};
     2%positive := {[ "count" := VNumber 1 ]} ]}
  ∅.

(** ** utils.ts: the connect helpers *)

Section ConnectHelpers.
Variable DEFAULT_BRANCH_NAME : string.

(** [defaultUiBranchSelector = state => state[DEFAULT_BRANCH_NAME]] *)
Definition defaultUiBranchSelector (h : heap) (state : value) : M value :=
  get h state DEFAULT_BRANCH_NAME.

(** [defaultMapStateToProps =
     state => ({ uiStateBranch: defaultUiBranchSelector(state) })]:
    the branch is read first, then the object literal is allocated. *)
Definition defaultMapStateToProps (h : heap) (state : value) : M (heap * value) :=
  uiStateBranch ← defaultUiBranchSelector h state;
  let '(h', l) := alloc h {[ "uiStateBranch" := uiStateBranch ]} in
  mret (h', VObject l).

End ConnectHelpers.

(** ** Well-formed stores *)

(** A value that is not a dangling reference. *)
Definition allocated (h : heap) (v : value) : Prop :=
  match v with
  | VObject l => is_Some (objects h !! l)
  | _ => True
  end.

#[global] Instance allocated_dec (h : heap) (v : value) : Decision (allocated h v).
Proof. destruct v; simpl; apply _. Defined.

(** The prototype chain from [v] reaches a built-in object or [null]
    after at most [fuel] objects of the store. *)
Fixpoint chain_ends (fuel : nat) (h : heap) (v : value) : bool :=
  match v with
  | VObject l =>
      match fuel with
      | O => false
      | S n =>
          match objects h !! l with
          | Some _ => chain_ends n h (proto_of h l)
          | None => false
          end
      end
  | _ => true
  end.

(** A store without dangling references and without cycles of
    prototypes: every property of every object is a primitive, a
    built-in object or a reference to an object of the store, every
    recorded prototype belongs to an object of the store and is an
    object of the store, a built-in object or [null], and every
    prototype chain ends. *)
Definition closed (h : heap) : Prop :=
  map_Forall (λ _ (o : gmap string value), map_Forall (λ _ v, allocated h v) o)
             (objects h) ∧
  map_Forall (λ l p, is_Some (objects h !! l) ∧ allocated h p ∧
                     isObjectOrNull p = true) (protos h) ∧
  map_Forall (λ l (_ : gmap string value),
                chain_ends (size (objects h)) h (VObject l) = true) (objects h).

#[global] Instance closed_dec (h : heap) : Decision (closed h).
Proof. unfold closed. apply _. Defined.

(** A larger store: the objects of [h] are in [h'] with the properties
    and the prototype they have in [h]. *)
Definition heap_le (h h' : heap) : Prop :=
  objects h ⊆ objects h' ∧
  ∀ l, is_Some (objects h !! l) → protos h' !! l = protos h !! l.

(** The record that a value contributes as a source of [Object.assign],
    read in the store that a call returned. *)
Definition record (r : heap * value) : gmap string value :=
  ownEnumerable r.1 r.2.

(** An object literal of the store: the record [o] at [l], with
    prototype [Object.prototype]. *)
Definition plain (h : heap) (l : loc) (o : gmap string value) : Prop :=
  objects h !! l = Some o ∧ protos h !! l = None.

(** The names that every object inherits from [Object.prototype]. *)
Definition inheritedName (k : string) : bool :=
  match objectPrototype_lookup k with
  | NotFound => false
  | _ => true
  end.

(** ** Object.assign in closed form *)

(** Whether a write of [__proto__] to the object at [to] makes an own
    property: it does when the object has the property already, or when
    its prototype chain does not lead to the accessor. *)
Definition proto_write_is_own (h : heap) (to : loc) : bool :=
  match default ∅ (objects h !! to) !! "__proto__" with
  | Some _ => true
  | None =>
      match chain_lookup (chain_fuel h) h (proto_of h to) "__proto__" with
      | FoundProtoAccessor => false
      | FoundData _ | NotFound => true
      end
  end.

(** The properties of a target with properties [F] after the source with
    properties [S]. *)
Definition assigned_fields (own : bool) (S F : gmap string value) : gmap string value :=
  (if own then S else delete "__proto__" S) ∪ F.

(** The prototypes after the source with properties [S]. *)
Definition assigned_protos
    (own : bool) (S : gmap string value) (to : loc) (ps : gmap loc value) : gmap loc value :=
  if own then ps
  else match S !! "__proto__" with
       | Some v => if isObjectOrNull v then <[to := v]> ps else ps
       | None => ps
       end.

(** Whether a first source with properties [A] installs, through its own
    [__proto__], a prototype whose chain does not lead to the accessor:
    the [__proto__] of a second source is then written as an own
    property. *)
Definition blocks_setter (h : heap) (A : gmap string value) : bool :=
  match A !! "__proto__" with
  | Some v =>
      isObjectOrNull v &&
      match chain_lookup (chain_fuel h) h v "__proto__" with
      | FoundProtoAccessor => false
      | FoundData _ | NotFound => true
      end
  | None => false
  end.

(** ** The prototype chain and the writes *)

Lemma objectPrototype_lookup_accessor (k : string) :
  objectPrototype_lookup k = FoundProtoAccessor ↔ k = "__proto__".
Proof.
  unfold objectPrototype_lookup.
  destruct (String.eqb k "__proto__") eqn:Hk.
  - apply String.eqb_eq in Hk. by subst.
  - apply String.eqb_neq in Hk.
    destruct (String.eqb k "constructor"); [by split|].
    by destruct (bool_decide _).
Qed.

Lemma chain_lookup_accessor (fuel : nat) (h : heap) (v : value) (k : string) :
  chain_lookup fuel h v k = FoundProtoAccessor → k = "__proto__".
Proof.
  revert v. induction fuel as [|n IH]; intros v; destruct v as [| | | | |l|b];
    simpl; try done; try by apply objectPrototype_lookup_accessor.
  destruct (objects h !! l) as [o|]; [|done].
  destruct (o !! k); [done|]. apply IH.
Qed.

(** A lookup of [k] sees of the store only which objects exist, their
    property [k] and their prototypes. *)
Lemma chain_lookup_ext (fuel : nat) (h h' : heap) (v : value) (k : string) :
  (∀ l, (λ o : gmap string value, o !! k) <$> objects h' !! l
        = (λ o : gmap string value, o !! k) <$> objects h !! l) →
  protos h' = protos h →
  chain_lookup fuel h' v k = chain_lookup fuel h v k.
Proof.
  intros Hobj Hproto. revert v.
  induction fuel as [|n IH]; intros v; destruct v as [| | | | |l|b];
    simpl; try done.
  specialize (Hobj l). unfold proto_of. rewrite Hproto.
  destruct (objects h' !! l) as [o'|], (objects h !! l) as [o|];
    simpl in Hobj; try done.
  injection Hobj as ->. destruct (o !! k); [done|]. apply IH.
Qed.

Lemma define_prop_objects (to : loc) (k : string) (v : value) (h : heap) (F : gmap string value) :
  objects h !! to = Some F →
  define_prop to k v h = Heap (<[to := <[k := v]> F]> (objects h)) (protos h).
Proof.
  intros Hto. unfold define_prop. f_equal.
  apply map_eq; intros l. rewrite lookup_alter.
  destruct (decide (to = l)) as [<-|Hne].
  - by rewrite lookup_insert_eq, Hto.
  - by rewrite lookup_insert_ne.
Qed.

Lemma set_prop_ordinary (to : loc) (k : string) (v : value) (h : heap) :
  k ≠ "__proto__" → set_prop to k v h = define_prop to k v h.
Proof.
  intros Hk. unfold set_prop.
  destruct (default ∅ (objects h !! to) !! k); [done|].
  destruct (chain_lookup (chain_fuel h) h (proto_of h to) k) eqn:Hc; try done.
  by apply chain_lookup_accessor in Hc.
Qed.

(** A write to [to] leaves the other objects as they are. *)
Lemma set_prop_other (to : loc) (k : string) (v : value) (h : heap) (l : loc) :
  l ≠ to →
  objects (set_prop to k v h) !! l = objects h !! l ∧
  protos (set_prop to k v h) !! l = protos h !! l.
Proof.
  intros Hne. assert (Hne' : to ≠ l) by congruence.
  unfold set_prop, define_prop, proto_setter.
  destruct (default ∅ (objects h !! to) !! k); cbn [objects protos].
  { by rewrite lookup_alter_ne. }
  destruct (chain_lookup (chain_fuel h) h (proto_of h to) k); cbn [objects protos];
    try by rewrite lookup_alter_ne.
  destruct (isObjectOrNull v); cbn [objects protos]; [|done].
  by rewrite lookup_insert_ne.
Qed.

Lemma set_prop_dom (to : loc) (k : string) (v : value) (h : heap) :
  dom (objects (set_prop to k v h)) = dom (objects h).
Proof.
  unfold set_prop, define_prop, proto_setter.
  destruct (default ∅ (objects h !! to) !! k); cbn [objects protos].
  { apply dom_alter_L. }
  destruct (chain_lookup (chain_fuel h) h (proto_of h to) k); cbn [objects protos];
    try apply dom_alter_L.
  by destruct (isObjectOrNull v).
Qed.

Lemma assign_from_other (to : loc) (h : heap) (src : value) (l : loc) :
  l ≠ to →
  objects (assign_from to h src) !! l = objects h !! l ∧
  protos (assign_from to h src) !! l = protos h !! l.
Proof.
  intros Hne. unfold assign_from.
  apply (map_fold_weak_ind
           (λ r (_ : gmap string value),
              objects r !! l = objects h !! l ∧ protos r !! l = protos h !! l)
           (λ k v acc, set_prop to k v acc) h); [done|].
  intros k v m r _ [IH1 IH2].
  destruct (set_prop_other to k v r l Hne) as [-> ->]. done.
Qed.

Lemma assign_from_dom (to : loc) (h : heap) (src : value) :
  dom (objects (assign_from to h src)) = dom (objects h).
Proof.
  unfold assign_from.
  apply (map_fold_weak_ind
           (λ r (_ : gmap string value), dom (objects r) = dom (objects h))
           (λ k v acc, set_prop to k v acc) h); [done|].
  intros k v m r _ IH. by rewrite set_prop_dom.
Qed.

Lemma Object_assign_other (h : heap) (to : loc) (sources : list value) (l : loc) :
  l ≠ to →
  objects (Object_assign h to sources) !! l = objects h !! l ∧
  protos (Object_assign h to sources) !! l = protos h !! l.
Proof.
  intros Hne. unfold Object_assign. revert h.
  induction sources as [|src sources IH]; intros h; simpl; [done|].
  destruct (IH (assign_from to h src)) as [-> ->].
  by apply assign_from_other.
Qed.

Lemma Object_assign_dom (h : heap) (to : loc) (sources : list value) :
  dom (objects (Object_assign h to sources)) = dom (objects h).
Proof.
  unfold Object_assign. revert h.
  induction sources as [|src sources IH]; intros h; simpl; [done|].
  by rewrite IH, assign_from_dom.
Qed.

Lemma size_dom_objects (h h' : heap) :
  dom (objects h') = dom (objects h) → chain_fuel h' = chain_fuel h.
Proof.
  intros Hdom. unfold chain_fuel. f_equal.
  by rewrite <- !size_dom, Hdom.
Qed.

Lemma assigned_fields_lookup_proto (own : bool) (m F : gmap string value) :
  m !! "__proto__" = None →
  assigned_fields own m F !! "__proto__" = F !! "__proto__".
Proof.
  intros Hm. unfold assigned_fields. destruct own.
  - by rewrite lookup_union_r.
  - rewrite lookup_union_r; [done|]. by rewrite lookup_delete_eq.
Qed.

Lemma assigned_fields_insert (own : bool) (m F : gmap string value) (i : string) (x : value) :
  i ≠ "__proto__" →
  <[i := x]> (assigned_fields own m F) = assigned_fields own (<[i := x]> m) F.
Proof.
  intros Hi. unfold assigned_fields. rewrite insert_union_l. destruct own; [done|].
  by rewrite delete_insert_ne.
Qed.

(** One source of [Object.assign], in closed form. *)
Lemma assign_from_closed (to : loc) (h : heap) (src : value) (F : gmap string value) :
  objects h !! to = Some F →
  assign_from to h src =
    Heap (<[to := assigned_fields (proto_write_is_own h to) (ownEnumerable h src) F]>
            (objects h))
         (assigned_protos (proto_write_is_own h to) (ownEnumerable h src) to
            (protos h)).
Proof.
  intros Hto. unfold assign_from.
  set (own := proto_write_is_own h to).
  apply (map_fold_weak_ind
           (λ r m, r = Heap (<[to := assigned_fields own m F]> (objects h))
                            (assigned_protos own m to (protos h)))
           (λ k v acc, set_prop to k v acc) h).
  - unfold assigned_fields, assigned_protos.
    rewrite delete_empty, lookup_empty.
    destruct own; rewrite (left_id_L ∅ (∪)), insert_id by done; by destruct h.
  - intros i x m r Hi ->.
    set (r := Heap (<[to := assigned_fields own m F]> (objects h))
                   (assigned_protos own m to (protos h))).
    assert (Hr : objects r !! to = Some (assigned_fields own m F))
      by apply lookup_insert_eq.
    destruct (decide (i = "__proto__")) as [->|Hne].
    + pose proof (assigned_fields_lookup_proto own m F Hi) as HFm.
      assert (Hps : protos r = protos h).
      { unfold r, assigned_protos. cbn [protos]. rewrite Hi. by destruct own. }
      assert (Hc : chain_lookup (chain_fuel r) r (proto_of r to) "__proto__"
                   = chain_lookup (chain_fuel h) h (proto_of h to) "__proto__").
      { rewrite (size_dom_objects h r).
        - unfold proto_of. rewrite Hps. apply chain_lookup_ext; [|done].
          intros l. unfold r. cbn [objects].
          destruct (decide (to = l)) as [<-|Hl].
          + rewrite lookup_insert_eq, Hto. cbn [fmap option_fmap option_map].
            by rewrite HFm.
          + by rewrite lookup_insert_ne.
        - unfold r. cbn [objects]. rewrite dom_insert_L.
          apply elem_of_dom_2 in Hto. set_solver. }
      unfold set_prop. rewrite Hr. cbn [default from_option id].
      rewrite HFm, Hc.
      assert (Hown : own = match F !! "__proto__" with
                           | Some _ => true
                           | None =>
                               match chain_lookup (chain_fuel h) h (proto_of h to)
                                       "__proto__" with
                               | FoundProtoAccessor => false
                               | _ => true
                               end
                           end).
      { unfold own, proto_write_is_own. by rewrite Hto. }
      clearbody own.
      destruct (F !! "__proto__") as [y|] eqn:HF;
        [|destruct (chain_lookup (chain_fuel h) h (proto_of h to) "__proto__")];
        subst own.
      * rewrite (define_prop_objects to _ x r _ Hr). unfold r. cbn [objects protos].
        rewrite insert_insert_eq. unfold assigned_fields, assigned_protos.
        by rewrite insert_union_l.
      * rewrite (define_prop_objects to _ x r _ Hr). unfold r. cbn [objects protos].
        rewrite insert_insert_eq. unfold assigned_fields, assigned_protos.
        by rewrite insert_union_l.
      * unfold proto_setter, r, assigned_fields, assigned_protos.
        cbn [objects protos]. rewrite Hi, lookup_insert_eq, delete_insert_eq.
        by destruct (isObjectOrNull x).
      * rewrite (define_prop_objects to _ x r _ Hr). unfold r. cbn [objects protos].
        rewrite insert_insert_eq. unfold assigned_fields, assigned_protos.
        by rewrite insert_union_l.
    + rewrite (set_prop_ordinary to i x r Hne).
      rewrite (define_prop_objects to i x r _ Hr). unfold r. cbn [objects protos].
      rewrite insert_insert_eq, (assigned_fields_insert own m F i x Hne).
      unfold assigned_protos. by rewrite lookup_insert_ne.
Qed.

(** ** The store only grows *)

Lemma fresh_objects (h : heap) : objects h !! fresh (dom (objects h)) = None.
Proof. apply not_elem_of_dom, is_fresh. Qed.

Lemma alloc_fresh (h : heap) o : objects h !! (alloc h o).2 = None.
Proof. apply fresh_objects. Qed.

Lemma heap_le_refl (h : heap) : heap_le h h.
Proof. by split. Qed.

Lemma heap_le_trans (h1 h2 h3 : heap) : heap_le h1 h2 → heap_le h2 h3 → heap_le h1 h3.
Proof.
  intros [Ho1 Hp1] [Ho2 Hp2]. split; [by etrans|].
  intros l [o Ho]. rewrite Hp2, Hp1; eauto.
  exists o. by apply (lookup_weaken _ _ _ _ Ho Ho1).
Qed.

Lemma alloc_le (h : heap) o : heap_le h (alloc h o).1.
Proof.
  unfold alloc. cbn [fst objects protos]. split.
  - apply insert_subseteq, fresh_objects.
  - intros l [x Hx]. apply lookup_delete_ne. intros <-.
    by rewrite fresh_objects in Hx.
Qed.

Lemma alloc_lookup (h : heap) o :
  objects (alloc h o).1 !! (alloc h o).2 = Some o ∧
  protos (alloc h o).1 !! (alloc h o).2 = None.
Proof.
  unfold alloc. cbn [fst snd objects protos].
  by rewrite lookup_insert_eq, lookup_delete_eq.
Qed.

Lemma merge_value (h : heap) obj1 obj2 :
  (merge h obj1 obj2).2 = VObject (fresh (dom (objects h))).
Proof. reflexivity. Qed.

Lemma merge_store (h : heap) obj1 obj2 :
  (merge h obj1 obj2).1
  = Object_assign (alloc h ∅).1 (fresh (dom (objects h))) [obj1; obj2].
Proof. reflexivity. Qed.

(** [merge] writes to no object that existed before the call. *)
Lemma merge_le (h : heap) obj1 obj2 : heap_le h (merge h obj1 obj2).1.
Proof.
  rewrite merge_store. set (to := fresh (dom (objects h))).
  assert (Hne : ∀ l, is_Some (objects h !! l) → l ≠ to).
  { intros l [o Ho] ->. unfold to in Ho. by rewrite fresh_objects in Ho. }
  destruct (alloc_le h ∅) as [Ho Hp]. split.
  - apply map_subseteq_spec. intros l o Hl.
    destruct (Object_assign_other (alloc h ∅).1 to [obj1; obj2] l) as [-> _];
      [apply Hne; eauto|].
    by apply (lookup_weaken _ _ _ _ Hl Ho).
  - intros l Hl.
    destruct (Object_assign_other (alloc h ∅).1 to [obj1; obj2] l) as [_ ->];
      [by apply Hne|].
    by apply Hp.
Qed.

Lemma merge_frame (h : heap) obj1 obj2 (l : loc) :
  is_Some (objects h !! l) →
  objects (merge h obj1 obj2).1 !! l = objects h !! l ∧
  proto_of (merge h obj1 obj2).1 l = proto_of h l.
Proof.
  intros [o Ho]. destruct (merge_le h obj1 obj2) as [Hobj Hproto]. split.
  - rewrite Ho. by apply (lookup_weaken _ _ _ _ Ho Hobj).
  - unfold proto_of. rewrite Hproto; eauto.
Qed.

Lemma merge_dom (h : heap) obj1 obj2 :
  dom (objects (merge h obj1 obj2).1) = {[ fresh (dom (objects h)) ]} ∪ dom (objects h).
Proof.
  rewrite merge_store, Object_assign_dom. unfold alloc. cbn [fst objects].
  apply dom_insert_L.
Qed.

Lemma ownEnumerable_alloc_empty (h : heap) (v : value) :
  ownEnumerable (alloc h ∅).1 v = ownEnumerable h v.
Proof.
  destruct v as [| | | | |l|b]; try done.
  unfold alloc. cbn [fst ownEnumerable objects].
  destruct (decide (fresh (dom (objects h)) = l)) as [<-|Hne].
  - by rewrite lookup_insert_eq, fresh_objects.
  - by rewrite lookup_insert_ne.
Qed.

(** The store after the first source of [merge]. *)
Lemma merge_first_source (h : heap) obj1 :
  let to := fresh (dom (objects h)) in
  let A := ownEnumerable h obj1 in
  assign_from to (alloc h ∅).1 obj1
  = Heap (<[to := delete "__proto__" A]> (objects h))
         (assigned_protos false A to (delete to (protos h))).
Proof.
  intros to A.
  rewrite (assign_from_closed to (alloc h ∅).1 obj1 ∅)
    by (unfold alloc; cbn [fst objects]; apply lookup_insert_eq).
  rewrite ownEnumerable_alloc_empty. fold A.
  assert (Hown : proto_write_is_own (alloc h ∅).1 to = false).
  { unfold proto_write_is_own, alloc, proto_of. cbn [fst objects protos].
    fold to. by rewrite !lookup_insert_eq, lookup_delete_eq. }
  rewrite Hown. unfold alloc, assigned_fields. cbn [fst objects protos]. fold to.
  by rewrite insert_insert_eq, (right_id_L ∅ (∪)).
Qed.

(** The result of [merge], in closed form: the first source never leaves
    an own [__proto__], the second one does when the prototype that the
    first one installed keeps the accessor out of reach. *)
Lemma merge_result (h : heap) obj1 obj2 :
  let to := fresh (dom (objects h)) in
  let A := ownEnumerable h obj1 in
  let h1 := Heap (<[to := delete "__proto__" A]> (objects h))
                 (assigned_protos false A to (delete to (protos h))) in
  let B := ownEnumerable h1 obj2 in
  let own := proto_write_is_own h1 to in
  merge h obj1 obj2
  = (Heap (<[to := assigned_fields own B (delete "__proto__" A)]> (objects h))
          (assigned_protos own B to (protos h1)),
     VObject to).
Proof.
  intros to A h1 B own.
  rewrite (surjective_pairing (merge h obj1 obj2)), merge_store, merge_value.
  f_equal. unfold Object_assign. cbn [foldl].
  pose proof (merge_first_source h obj1) as Hfirst. cbv zeta in Hfirst.
  rewrite Hfirst. fold to A h1.
  rewrite (assign_from_closed to h1 obj2 (delete "__proto__" A))
    by (unfold h1; cbn [objects]; apply lookup_insert_eq).
  fold B own. unfold h1 at 1. cbn [objects]. by rewrite insert_insert_eq.
Qed.

Lemma ownEnumerable_allocated_le (h h' : heap) (v : value) :
  heap_le h h' → allocated h v → ownEnumerable h' v = ownEnumerable h v.
Proof.
  intros [Hobj _] Hv. destruct v as [| | | | |l|b]; try done.
  destruct Hv as [o Ho]. cbn [ownEnumerable].
  by rewrite Ho, (lookup_weaken _ _ _ _ Ho Hobj).
Qed.

(** The second source of [merge] is read as it was before the call. *)
Lemma merge_second_source (h : heap) obj1 obj2 :
  allocated h obj2 →
  let to := fresh (dom (objects h)) in
  let A := ownEnumerable h obj1 in
  ownEnumerable
    (Heap (<[to := delete "__proto__" A]> (objects h))
          (assigned_protos false A to (delete to (protos h)))) obj2
  = ownEnumerable h obj2.
Proof.
  intros Hv to A. destruct obj2 as [| | | | |l|b]; try done.
  destruct Hv as [o Ho]. cbn [ownEnumerable objects].
  rewrite lookup_insert_ne; [done|].
  intros <-. unfold to in Ho. by rewrite fresh_objects in Ho.
Qed.

(** Apart from [__proto__], the result of [merge] holds the properties
    of the second argument over those of the first. *)
Lemma merge_record_ordinary (h : heap) obj1 obj2 (k : string) :
  allocated h obj2 →
  k ≠ "__proto__" →
  record (merge h obj1 obj2) !! k
  = (ownEnumerable h obj2 ∪ ownEnumerable h obj1) !! k.
Proof.
  intros Hv Hk. unfold record. rewrite merge_result.
  cbn [fst snd ownEnumerable objects]. rewrite lookup_insert_eq.
  cbn [default from_option id].
  rewrite (merge_second_source h obj1 obj2 Hv).
  unfold assigned_fields. rewrite !lookup_union.
  destruct (proto_write_is_own _ _);
    by rewrite ?lookup_delete_ne by done.
Qed.

(** When the second argument has no own [__proto__], so has the result,
    which holds its properties over those of the first argument. *)
Lemma merge_record_plain (h : heap) obj1 obj2 :
  allocated h obj2 →
  ownEnumerable h obj2 !! "__proto__" = None →
  record (merge h obj1 obj2)
  = ownEnumerable h obj2 ∪ delete "__proto__" (ownEnumerable h obj1).
Proof.
  intros Hv Hp. unfold record. rewrite merge_result.
  cbn [fst snd ownEnumerable objects]. rewrite lookup_insert_eq.
  cbn [default from_option id].
  rewrite (merge_second_source h obj1 obj2 Hv).
  unfold assigned_fields.
  destruct (proto_write_is_own _ _); [done|].
  by rewrite delete_id.
Qed.

(** ** Properties of merge *)

(** C1, as the code has it.  For a prior state object with properties
    [S] and a partial update with properties [P], [merge] returns an
    object that is the shallow union [{...S, ...P}] on every property
    other than [__proto__]: such a property absent from [P] keeps its
    value from [S], one present in [P] takes its value from [P], and none
    of [S] is deleted; when neither [S] nor [P] has an own [__proto__]
    the object holds exactly the union. *)
Theorem merge_is_shallow_union (h : heap) (lS lP : loc) (S P : gmap string value) :
  objects h !! lS = Some S →
  objects h !! lP = Some P →
  ∃ l r,
    (merge h (VObject lS) (VObject lP)).2 = VObject l ∧
    objects (merge h (VObject lS) (VObject lP)).1 !! l = Some r ∧
    (∀ k, k ≠ "__proto__" → r !! k = spread S P !! k) ∧
    (∀ k, k ≠ "__proto__" → P !! k = None → r !! k = S !! k) ∧
    (∀ k, k ≠ "__proto__" → is_Some (P !! k) → r !! k = P !! k) ∧
    (∀ k, k ≠ "__proto__" → is_Some (S !! k) → is_Some (r !! k)) ∧
    (S !! "__proto__" = None → P !! "__proto__" = None → r = spread S P).
Proof.
  intros HS HP.
  assert (HaP : allocated h (VObject lP)) by (simpl; eauto).
  pose proof (merge_record_ordinary h (VObject lS) (VObject lP)) as Hord.
  pose proof (merge_record_plain h (VObject lS) (VObject lP) HaP) as Hplain.
  unfold record in Hord, Hplain. rewrite merge_value in Hord, Hplain.
  cbn [ownEnumerable] in Hord, Hplain. rewrite HS, HP in Hord, Hplain.
  cbn [default from_option id] in Hord, Hplain.
  destruct (objects (merge h (VObject lS) (VObject lP)).1
              !! fresh (dom (objects h))) as [r|] eqn:Hr.
  2:{ exfalso. apply not_elem_of_dom in Hr. apply Hr.
      rewrite merge_dom. set_solver. }
  cbn [default from_option id] in Hord, Hplain.
  exists (fresh (dom (objects h))), r.
  split; [apply merge_value|]. split; [done|].
  assert (Hk : ∀ k, k ≠ "__proto__" → r !! k = (P ∪ S) !! k)
    by (intros k Hk; by apply Hord).
  split; [exact Hk|]. split; [|split; [|split]].
  - intros k Hne Hnone. rewrite Hk by done. by apply lookup_union_r.
  - intros k Hne Hsome. rewrite Hk by done. by apply lookup_union_l'.
  - intros k Hne [v Hv]. rewrite Hk, lookup_union by done.
    destruct (P !! k); rewrite ?Hv; simpl; eauto.
  - intros HnS HnP. rewrite Hplain by done. unfold spread.
    by rewrite delete_id.
Qed.

Lemma merge_is_shallow_union_witness :
  ∃ l r,
    (merge sampleHeap (VObject 4) (VObject 6)).2 = VObject l ∧
    objects (merge sampleHeap (VObject 4) (VObject 6)).1 !! l = Some r ∧
    (∀ k, k ≠ "__proto__" →
          r !! k = spread {[ "count" := VNumber 0; "label" := VString "x" ]}
                          {[ "count" := VNumber 1 ]} !! k) ∧
    (∀ k, k ≠ "__proto__" →
          ({[ "count" := VNumber 1 ]} : gmap string value) !! k = None →
          r !! k = ({[ "count" := VNumber 0; "label" := VString "x" ]}
                      : gmap string value) !! k) ∧
    (∀ k, k ≠ "__proto__" →
          is_Some (({[ "count" := VNumber 1 ]} : gmap string value) !! k) →
          r !! k = ({[ "count" := VNumber 1 ]} : gmap string value) !! k) ∧
    (∀ k, k ≠ "__proto__" →
          is_Some (({[ "count" := VNumber 0; "label" := VString "x" ]}
                      : gmap string value) !! k) → is_Some (r !! k)) ∧
    (({[ "count" := VNumber 0; "label" := VString "x" ]}
        : gmap string value) !! "__proto__" = None →
     ({[ "count" := VNumber 1 ]} : gmap string value) !! "__proto__" = None →
     r = spread {[ "count" := VNumber 0; "label" := VString "x" ]}
                {[ "count" := VNumber 1 ]}).
Proof.
  apply (merge_is_shallow_union sampleHeap 4 6); reflexivity.
Defined.

(** An own [__proto__] property of the prior state is not kept:
    [Object.assign] hands it to the setter of [Object.prototype], which
    ignores the number, and the merged object has no such property. *)
Lemma merge_drops_own_proto :
  objects protoHeap !! 1%positive
    = Some {[ "__proto__" := VNumber 5; "count" := VNumber 0 ]} ∧
  objects protoHeap !! 2%positive = Some {[ "count" := VNumber 1 ]} ∧
  (merge protoHeap (VObject 1) (VObject 2)).2 = VObject 3 ∧
  objects (merge protoHeap (VObject 1) (VObject 2)).1 !! 3%positive
    = Some {[ "count" := VNumber 1 ]} ∧
  record (merge protoHeap (VObject 1) (VObject 2)) !! "__proto__" = None ∧
  spread {[ "__proto__" := VNumber 5; "count" := VNumber 0 ]}
         {[ "count" := VNumber 1 ]} !! "__proto__" = Some (VNumber 5).
Proof. repeat split; vm_compute; reflexivity. Qed.

Example merge_sample :
  (merge sampleHeap (VObject 4) (VObject 6)).2 = VObject 8 ∧
  objects (merge sampleHeap (VObject 4) (VObject 6)).1 !! 8%positive
    = Some {[ "count" := VNumber 1; "label" := VString "x" ]}.
Proof. split; vm_compute; reflexivity. Qed.

(** C10. [merge] returns a reference that was not allocated before the
    call and is allocated after it, hence a new object distinct from both
    inputs, and every object that existed before the call, the two inputs
    included, has the properties and the prototype it had. *)
Theorem merge_allocates_fresh (h : heap) (l1 l2 : loc) (o1 o2 : gmap string value) :
  objects h !! l1 = Some o1 →
  objects h !! l2 = Some o2 →
  ∃ l,
    (merge h (VObject l1) (VObject l2)).2 = VObject l ∧
    objects h !! l = None ∧
    is_Some (objects (merge h (VObject l1) (VObject l2)).1 !! l) ∧
    l ≠ l1 ∧ l ≠ l2 ∧
    objects (merge h (VObject l1) (VObject l2)).1 !! l1 = Some o1 ∧
    objects (merge h (VObject l1) (VObject l2)).1 !! l2 = Some o2 ∧
    proto_of (merge h (VObject l1) (VObject l2)).1 l1 = proto_of h l1 ∧
    proto_of (merge h (VObject l1) (VObject l2)).1 l2 = proto_of h l2 ∧
    (∀ l0, l0 ≠ l →
       objects (merge h (VObject l1) (VObject l2)).1 !! l0 = objects h !! l0 ∧
       protos (merge h (VObject l1) (VObject l2)).1 !! l0 = protos h !! l0).
Proof.
  intros H1 H2.
  pose proof (fresh_objects h) as Hfresh.
  exists (fresh (dom (objects h))).
  split; [apply merge_value|]. split; [done|]. split.
  { apply elem_of_dom. rewrite merge_dom. set_solver. }
  split; [congruence|]. split; [congruence|].
  destruct (merge_frame h (VObject l1) (VObject l2) l1) as [Ho1 Hp1]; [eauto|].
  destruct (merge_frame h (VObject l1) (VObject l2) l2) as [Ho2 Hp2]; [eauto|].
  split; [by rewrite Ho1|]. split; [by rewrite Ho2|].
  split; [done|]. split; [done|].
  intros l0 Hne. rewrite merge_store.
  destruct (Object_assign_other (alloc h ∅).1 (fresh (dom (objects h)))
              [VObject l1; VObject l2] l0 Hne) as [-> ->].
  unfold alloc. cbn [fst objects protos].
  by rewrite lookup_insert_ne, lookup_delete_ne.
Qed.

Lemma merge_allocates_fresh_witness :
  ∃ l,
    (merge sampleHeap (VObject 4) (VObject 6)).2 = VObject l ∧
    objects sampleHeap !! l = None ∧
    is_Some (objects (merge sampleHeap (VObject 4) (VObject 6)).1 !! l) ∧
    l ≠ 4%positive ∧ l ≠ 6%positive ∧
    objects (merge sampleHeap (VObject 4) (VObject 6)).1 !! 4%positive
      = Some {[ "count" := VNumber 0; "label" := VString "x" ]} ∧
    objects (merge sampleHeap (VObject 4) (VObject 6)).1 !! 6%positive
      = Some {[ "count" := VNumber 1 ]} ∧
    proto_of (merge sampleHeap (VObject 4) (VObject 6)).1 4 = proto_of sampleHeap 4 ∧
    proto_of (merge sampleHeap (VObject 4) (VObject 6)).1 6 = proto_of sampleHeap 6 ∧
    (∀ l0, l0 ≠ l →
       objects (merge sampleHeap (VObject 4) (VObject 6)).1 !! l0
         = objects sampleHeap !! l0 ∧
       protos (merge sampleHeap (VObject 4) (VObject 6)).1 !! l0
         = protos sampleHeap !! l0).
Proof.
  apply (merge_allocates_fresh sampleHeap 4 6); reflexivity.
Defined.

(** ** Reading a property *)

Lemma lookup_prop_own (h : heap) (l : loc) (o : gmap string value) (k : string) (v : value) :
  objects h !! l = Some o → o !! k = Some v → lookup_prop h l k = v.
Proof.
  intros Hl Hk. unfold lookup_prop, chain_fuel. simpl. by rewrite Hl, Hk.
Qed.

Lemma lookup_prop_plain_absent (h : heap) (l : loc) (o : gmap string value) (k : string) :
  objects h !! l = Some o → o !! k = None → protos h !! l = None →
  inheritedName k = false →
  lookup_prop h l k = VUndefined.
Proof.
  intros Hl Hk Hp Hname. unfold lookup_prop, chain_fuel. simpl.
  rewrite Hl, Hk. unfold proto_of. rewrite Hp. simpl.
  unfold inheritedName in Hname.
  destruct (size (objects h)); simpl; by destruct (objectPrototype_lookup k).
Qed.
(** ** Properties of the computation type *)

Lemma bind_return {A B} (w : list string) (a : A) (k : A → M B) :
  Run w (Return a) ≫= k = Run (w ++ console (k a)) (result (k a)).
Proof. reflexivity. Qed.

Lemma bind_throw {A B} (w : list string) (e : error) (k : A → M B) :
  Run w (Throw e) ≫= k = Run w (Throw e).
Proof. reflexivity. Qed.

Lemma ret_bind {A B} (a : A) (k : A → M B) : mret a ≫= k = k a.
Proof. unfold mret, M_ret, mbind, M_bind. simpl. by destruct (k a). Qed.

Lemma throws_bind {A B} (m : M A) (k : A → M B) :
  throws m = true → throws (m ≫= k) = true.
Proof.
  destruct m as [w [a|e]]; [discriminate|reflexivity].
Qed.

(** ** Properties of identity resolution and of the selectors *)

Section SelectorProperties.
Context {TProps : Type} `{!UIStateProps TProps}.
Variable DEFAULT_BRANCH_NAME : string.
Variable h : heap.

Lemma idIsString_spec (v : value) :
  idIsString (Data v : Id TProps) = isString v.
Proof. by destruct v. Qed.

(** C2. Identity resolution returns a string id unchanged, returns the
    result of calling a function id on the props, and returns
    [undefined] for every other id. *)
Theorem getStringFromId_cases (props : TProps) :
  (∀ s : string, getStringFromId (Data (VString s)) props = VString s) ∧
  (∀ f : IdFunction TProps, getStringFromId (Func f) props = f props) ∧
  (∀ v : value,
     getStringFromId (Data v) props = if isString v then v else VUndefined).
Proof.
  split; [done|]. split; [done|].
  intros v. unfold getStringFromId. rewrite idIsString_spec.
  by destruct v.
Qed.

(** C8. The branch-locator selection returns the locator supplied in the
    props when there is one, the default top-level locator when the
    props have none or are themselves missing, and in every case one of
    the two, never a combination. *)
Theorem uiStateBranchSelectorSelector_precedence (state : value) :
  (∀ p f, props_uiStateBranchSelector p = Func f →
          uiStateBranchSelectorSelector DEFAULT_BRANCH_NAME state (Some p) = Func f) ∧
  (∀ p, truthy (props_uiStateBranchSelector p) = false →
        uiStateBranchSelectorSelector DEFAULT_BRANCH_NAME state (Some p)
        = Func (defaultUIStateBranchSelector DEFAULT_BRANCH_NAME)) ∧
  uiStateBranchSelectorSelector DEFAULT_BRANCH_NAME state (None : option TProps)
    = Func (defaultUIStateBranchSelector DEFAULT_BRANCH_NAME) ∧
  (∀ props,
     uiStateBranchSelectorSelector DEFAULT_BRANCH_NAME state props
       = Func (defaultUIStateBranchSelector DEFAULT_BRANCH_NAME) ∨
     ∃ p, props = Some p ∧
          uiStateBranchSelectorSelector DEFAULT_BRANCH_NAME state props
            = props_uiStateBranchSelector p).
Proof.
  unfold uiStateBranchSelectorSelector, js_or, props_and.
  split; [|split; [|split]].
  - intros p f ->. done.
  - intros p ->. done.
  - done.
  - intros [p|]; [|by left].
    destruct (truthy (props_uiStateBranchSelector p)); [right; eauto|by left].
Qed.

(** C3. When the chosen locator, applied to the state, yields a falsy
    value (no branch), branch selection throws the configuration error;
    when it yields a branch, that branch is returned. *)
Theorem uiStateBranchSelector_throws_or_returns
    (state : value) (props : option TProps)
    (locator : UIStateBranchSelector) (w : list string) (branch : value) :
  uiStateBranchSelectorSelector DEFAULT_BRANCH_NAME state props = Func locator →
  locator h state = Run w (Return branch) →
  uiStateBranchSelector DEFAULT_BRANCH_NAME h state props
    = Run w (if toBoolean branch then Return branch
             else Throw (Error branch_error_message)).
Proof.
  intros Hsel Hloc.
  unfold uiStateBranchSelector, createSelector2, stateSelector.
  rewrite !ret_bind, Hsel. unfold selectBranch. rewrite Hloc, bind_return.
  destruct (toBoolean branch); simpl; by rewrite (right_id_L [] (++)).
Qed.

(** The id selector writes nothing to the console. *)
Lemma idSelector_console (state : value) (props : option TProps) :
  console (idSelector state props) = [].
Proof.
  unfold idSelector. destruct props as [p|]; [|done].
  by destruct (truthy (props_uiStateId p)).
Qed.

Lemma selectUIState_object (lc : loc) (i : value) :
  selectUIState h (VObject lc) i =
    let uiState := lookup_prop h lc (toString i) in
    Run (if toBoolean uiState then [] else [undefined_state_warning i])
        (Return uiState).
Proof.
  unfold selectUIState, get. rewrite ret_bind. simpl.
  by destruct (toBoolean (lookup_prop h lc (toString i))).
Qed.

(** C4, as the code has it.  Given the components map and the resolved
    id, per-id selection returns the stored value when the id is a key of
    the map (and logs the warning if that value is falsy).  When the id
    is not a key of the map, the map is an object literal and the id is
    not the name of a property that every object inherits from
    [Object.prototype], it does not throw: it logs the warning and
    returns [undefined]. *)
Theorem uiStateSelector_lookup
    (state : value) (props : option TProps)
    (w : list string) (lc : loc) (comps : gmap string value) (i : value) :
  uiStateComponentsSelector DEFAULT_BRANCH_NAME h state props
    = Run w (Return (VObject lc)) →
  objects h !! lc = Some comps →
  result (idSelector state props) = Return i →
  (comps !! toString i = None →
   protos h !! lc = None →
   inheritedName (toString i) = false →
     uiStateSelector DEFAULT_BRANCH_NAME h state props
       = Run (w ++ [undefined_state_warning i]) (Return VUndefined)) ∧
  (∀ v, comps !! toString i = Some v →
     uiStateSelector DEFAULT_BRANCH_NAME h state props
       = Run (w ++ if toBoolean v then [] else [undefined_state_warning i])
             (Return v)).
Proof.
  intros Hcomps Hlc Hid.
  assert (Hsel : ∀ u,
    lookup_prop h lc (toString i) = u →
    uiStateSelector DEFAULT_BRANCH_NAME h state props
      = Run (w ++ if toBoolean u then [] else [undefined_state_warning i])
            (Return u)).
  { intros u Hu. unfold uiStateSelector, createSelector2.
    rewrite Hcomps, bind_return.
    pose proof (idSelector_console state props) as Hc.
    destruct (idSelector state props) as [wi ri]. simpl in Hid, Hc. subst.
    rewrite bind_return, (selectUIState_object lc).
    simpl. by destruct (toBoolean _). }
  split.
  - intros Hnone Hplain Hname. apply (Hsel VUndefined).
    by apply (lookup_prop_plain_absent h lc comps).
  - intros v Hv. apply Hsel. by apply (lookup_prop_own h lc comps).
Qed.

(** C9. The id selector throws exactly when the [uiStateId] prop is
    falsy, an absent prop and the empty-string literal included; with a
    function id it returns what the function returns, without error,
    also when that is [undefined] or the empty string. *)
Theorem idSelector_throws_iff_prop_falsy (state : value) (p : TProps) :
  throws (idSelector state (Some p)) = negb (truthy (props_uiStateId p)) ∧
  (truthy (props_uiStateId p) = false →
     idSelector state (Some p) = throw (Error id_error_message)) ∧
  (props_uiStateId p = Data VUndefined ∨ props_uiStateId p = Data (VString "") →
     idSelector state (Some p) = throw (Error id_error_message)) ∧
  (∀ f, props_uiStateId p = Func f →
     idSelector state (Some p) = mret (f p) ∧
     (unresolved (f p) = true →
        result (idSelector state (Some p)) = Return (f p))).
Proof.
  unfold idSelector.
  split; [by destruct (truthy (props_uiStateId p))|].
  split; [by intros ->|].
  split; [by intros [-> | ->]|].
  intros f ->. done.
Qed.

Lemma idSelector_without_props (state : value) :
  idSelector state (None : option TProps) = throw TypeError.
Proof. reflexivity. Qed.

(** C5, as the code has it.  The guard of the id selector is on the
    [uiStateId] prop, not on the resolved id: when the prop is falsy
    (absent, or the empty-string literal) the read and the write both
    throw the configuration error, the read as soon as the components
    map has been selected and the write before anything is dispatched. *)
Theorem falsy_uiStateId_is_configuration_error
    {D : Type} (dispatch : Action → D)
    (state : value) (p : TProps) (partial : value) :
  truthy (props_uiStateId p) = false →
  idSelector state (Some p) = throw (Error id_error_message) ∧
  throws (uiStateSelector DEFAULT_BRANCH_NAME h state (Some p)) = true ∧
  (∀ w components,
     uiStateComponentsSelector DEFAULT_BRANCH_NAME h state (Some p)
       = Run w (Return components) →
     uiStateSelector DEFAULT_BRANCH_NAME h state (Some p)
       = Run w (Throw (Error id_error_message))) ∧
  setUIStateSelector dispatch (Some p) partial = throw (Error id_error_message).
Proof.
  intros Hfalsy.
  assert (Hid : ∀ st, idSelector st (Some p) = throw (Error id_error_message)).
  { intros st. unfold idSelector. by rewrite Hfalsy. }
  split; [apply Hid|].
  assert (Hread : ∀ w components,
    uiStateComponentsSelector DEFAULT_BRANCH_NAME h state (Some p)
      = Run w (Return components) →
    uiStateSelector DEFAULT_BRANCH_NAME h state (Some p)
      = Run w (Throw (Error id_error_message))).
  { intros w components Hc. unfold uiStateSelector, createSelector2.
    rewrite Hc, bind_return, Hid. simpl. by rewrite (right_id_L [] (++)). }
  split; [|split; [exact Hread|]].
  - destruct (uiStateComponentsSelector DEFAULT_BRANCH_NAME h state (Some p))
      as [w [components|e]] eqn:Hc.
    + by rewrite (Hread w components).
    + unfold uiStateSelector, createSelector2. by rewrite Hc.
  - unfold setUIStateSelector. by rewrite Hid.
Qed.

(** C7, as the code has it.  The setter built from [props] resolves the
    id from those props.  When their [uiStateId] is truthy it ends in
    exactly one call of [dispatch], on the mutation action made of that
    id and of the partial state it was given; when it is falsy the
    setter throws and [dispatch] is not called. *)
Theorem setUIStateSelector_dispatches_once
    {D : Type} (dispatch : Action → D) (p : TProps) (partial : value) :
  let action :=
    setUIState {| payload_id := getStringFromId (props_uiStateId p) p;
                  payload_state := partial |} in
  setUIStateSelector dispatch (Some p) partial
    = (if truthy (props_uiStateId p) then mret (dispatch action)
       else throw (Error id_error_message)) ∧
  dispatched (setUIStateSelector recordingDispatch (Some p) partial)
    = (if truthy (props_uiStateId p) then [action] else []).
Proof.
  unfold setUIStateSelector, idSelector, dispatched.
  by destruct (truthy (props_uiStateId p)).
Qed.
End SelectorProperties.

(** ** The selectors on the sample store *)

Example get_samples :
  get sampleHeap (VObject 4) "label" = mret (VString "x") ∧
  get sampleHeap (VObject 4) "missing" = mret VUndefined ∧
  get sampleHeap (VObject 4) "toString"
    = mret (VBuiltin "Object.prototype.toString") ∧
  get sampleHeap (VObject 4) "__proto__" = mret ObjectPrototype ∧
  get sampleHeap (VString "abc") "length" = mret (VNumber 3) ∧
  get sampleHeap (VString "abc") "1" = mret (VString "b") ∧
  get sampleHeap (VNumber 5) "components" = mret VUndefined ∧
  get sampleHeap VNull "components" = throw TypeError.
Proof. repeat split; vm_compute; reflexivity. Qed.

Example getStringFromId_samples :
  getStringFromId (props_uiStateId (literalId (VString "literal")))
                  (literalId (VString "literal")) = VString "literal" ∧
  getStringFromId (props_uiStateId (keyedId (VString "x")))
                  (keyedId (VString "x")) = VString "x" ∧
  getStringFromId (props_uiStateId (keyedId VUndefined))
                  (keyedId VUndefined) = VUndefined ∧
  getStringFromId (props_uiStateId (literalId (VNumber 3)))
                  (literalId (VNumber 3)) = VUndefined.
Proof. repeat split. Qed.

Example uiStateSelector_samples :
  uiStateSelector "uiState" sampleHeap (VObject 1) (Some (literalId (VString "a")))
    = Run [] (Return (VObject 4)) ∧
  uiStateSelector "uiState" sampleHeap (VObject 1) (Some (keyedId (VString "c")))
    = Run [undefined_state_warning (VString "c")] (Return VUndefined) ∧
  uiStateSelector "uiState" sampleHeap (VObject 7) (Some (literalId (VString "a")))
    = Run [] (Throw (Error branch_error_message)) ∧
  uiStateSelector "uiState" sampleHeap VUndefined (Some (literalId (VString "a")))
    = Run [] (Throw TypeError).
Proof. repeat split; vm_compute; reflexivity. Qed.

Lemma uiStateBranchSelectorSelector_precedence_witness :
  uiStateBranchSelectorSelector "uiState" (VObject 1) (Some (locatedId (VString "a")))
    = Func uiLocator ∧
  uiStateBranchSelectorSelector "uiState" (VObject 1) (Some (literalId (VString "a")))
    = Func (defaultUIStateBranchSelector "uiState").
Proof.
  split.
  - apply (proj1 (uiStateBranchSelectorSelector_precedence "uiState" (VObject 1))).
    reflexivity.
  - apply (proj1 (proj2
             (uiStateBranchSelectorSelector_precedence "uiState" (VObject 1)))).
    reflexivity.
Defined.

(** The state tree at reference 7 has no branch under the default key. *)
Lemma uiStateBranchSelector_throws_or_returns_witness :
  uiStateBranchSelector "uiState" sampleHeap (VObject 7)
      (Some (literalId (VString "a")))
    = Run [] (Throw (Error branch_error_message)) ∧
  uiStateBranchSelector "uiState" sampleHeap (VObject 1)
      (Some (literalId (VString "a")))
    = Run [] (Return (VObject 2)).
Proof.
  split.
  - apply (uiStateBranchSelector_throws_or_returns "uiState" sampleHeap
             (VObject 7) (Some (literalId (VString "a")))
             (defaultUIStateBranchSelector "uiState") [] VUndefined);
      reflexivity.
  - apply (uiStateBranchSelector_throws_or_returns "uiState" sampleHeap
             (VObject 1) (Some (literalId (VString "a")))
             (defaultUIStateBranchSelector "uiState") [] (VObject 2));
      reflexivity.
Defined.

Lemma uiStateSelector_lookup_witness :
  uiStateSelector "uiState" sampleHeap (VObject 1) (Some (literalId (VString "c")))
    = Run [undefined_state_warning (VString "c")] (Return VUndefined) ∧
  uiStateSelector "uiState" sampleHeap (VObject 1) (Some (literalId (VString "b")))
    = Run [] (Return (VObject 5)).
Proof.
  split.
  - destruct (uiStateSelector_lookup "uiState" sampleHeap (VObject 1)
                (Some (literalId (VString "c"))) [] 3
                {[ "a" := VObject 4; "b" := VObject 5 ]} (VString "c"))
      as [Habsent _]; [reflexivity..|].
    apply Habsent; reflexivity.
  - destruct (uiStateSelector_lookup "uiState" sampleHeap (VObject 1)
                (Some (literalId (VString "b"))) [] 3
                {[ "a" := VObject 4; "b" := VObject 5 ]} (VString "b"))
      as [_ Hpresent]; [reflexivity..|].
    apply (Hpresent (VObject 5)). reflexivity.
Defined.

(** The id "constructor" is not a key of the components map of the
    sample store, yet selection finds the function [Object] that the map
    inherits from [Object.prototype]: it returns that function and logs
    nothing. *)
Lemma inherited_id_is_found :
  objects sampleHeap !! 3%positive = Some {[ "a" := VObject 4; "b" := VObject 5 ]} ∧
  ({[ "a" := VObject 4; "b" := VObject 5 ]} : gmap string value) !! "constructor"
    = None ∧
  uiStateComponentsSelector "uiState" sampleHeap (VObject 1)
      (Some (literalId (VString "constructor")))
    = Run [] (Return (VObject 3)) ∧
  idSelector (VObject 1) (Some (literalId (VString "constructor")))
    = mret (VString "constructor") ∧
  uiStateSelector "uiState" sampleHeap (VObject 1)
      (Some (literalId (VString "constructor")))
    = Run [] (Return (VBuiltin "Object")).
Proof. repeat split; vm_compute; reflexivity. Qed.

Lemma idSelector_throws_iff_prop_falsy_witness :
  idSelector VUndefined (Some (literalId (VString "")))
    = throw (Error id_error_message) ∧
  idSelector VUndefined (Some (keyedId VUndefined)) = mret VUndefined ∧
  idSelector VUndefined (Some (keyedId (VString ""))) = mret (VString "").
Proof.
  split; [|split].
  - destruct (idSelector_throws_iff_prop_falsy VUndefined (literalId (VString "")))
      as (_ & Hfalsy & _).
    apply Hfalsy. reflexivity.
  - destruct (idSelector_throws_iff_prop_falsy VUndefined (keyedId VUndefined))
      as (_ & _ & _ & Hfun).
    apply (Hfun sample_key). reflexivity.
  - destruct (idSelector_throws_iff_prop_falsy VUndefined (keyedId (VString "")))
      as (_ & _ & _ & Hfun).
    apply (Hfun sample_key). reflexivity.
Defined.

Lemma falsy_uiStateId_is_configuration_error_witness :
  idSelector (VObject 1) (Some (literalId (VString "")))
    = throw (Error id_error_message) ∧
  throws (uiStateSelector "uiState" sampleHeap (VObject 1)
            (Some (literalId (VString "")))) = true ∧
  (∀ w components,
     uiStateComponentsSelector "uiState" sampleHeap (VObject 1)
         (Some (literalId (VString "")))
       = Run w (Return components) →
     uiStateSelector "uiState" sampleHeap (VObject 1)
         (Some (literalId (VString "")))
       = Run w (Throw (Error id_error_message))) ∧
  setUIStateSelector recordingDispatch (Some (literalId (VString ""))) (VObject 6)
    = throw (Error id_error_message).
Proof.
  apply (falsy_uiStateId_is_configuration_error "uiState" sampleHeap
           recordingDispatch (VObject 1) (literalId (VString "")) (VObject 6)).
  reflexivity.
Defined.

(** An id function that returns [undefined] passes the guard: the read
    looks up the key "undefined", warns and returns; the write dispatches
    an action whose id is [undefined].  Neither throws. *)
Lemma unresolved_function_id_is_not_rejected :
  unresolved (getStringFromId (props_uiStateId (keyedId VUndefined))
                              (keyedId VUndefined)) = true ∧
  uiStateSelector "uiState" sampleHeap (VObject 1) (Some (keyedId VUndefined))
    = Run [undefined_state_warning VUndefined] (Return VUndefined) ∧
  throws (setUIStateSelector recordingDispatch (Some (keyedId VUndefined))
            (VObject 6)) = false ∧
  dispatched (setUIStateSelector recordingDispatch (Some (keyedId VUndefined))
                (VObject 6))
    = [setUIState {| payload_id := VUndefined; payload_state := VObject 6 |}].
Proof. repeat split; vm_compute; reflexivity. Qed.

(** With the empty-string literal as id the setter throws: no action is
    dispatched, rather than exactly one. *)
Lemma empty_id_setter_dispatches_nothing :
  result (setUIStateSelector recordingDispatch
            (Some (literalId (VString ""))) (VObject 6))
    = Throw (Error id_error_message) ∧
  dispatched (setUIStateSelector recordingDispatch
                (Some (literalId (VString ""))) (VObject 6)) = [].
Proof. split; reflexivity. Qed.

Example setter_sample :
  dispatched (setUIStateSelector recordingDispatch
                (Some (keyedId (VString "counter-1"))) (VObject 6))
    = [setUIState {| payload_id := VString "counter-1";
                     payload_state := VObject 6 |}].
Proof. reflexivity. Qed.

(** ** Properties of the reducer *)

#[local] Arguments merge : simpl never.
#[local] Arguments priorEntry : simpl never.
#[local] Arguments alloc : simpl never.

Lemma priorEntry_le (h : heap) prior : heap_le h (priorEntry h prior).1.
Proof.
  destruct prior; unfold priorEntry; try apply heap_le_refl.
  apply (alloc_le h ∅).
Qed.

Lemma initialBranch_le (h : heap) : heap_le h (initialBranch h).1.
Proof.
  unfold initialBranch.
  pose proof (alloc_le h ∅) as H1.
  destruct (alloc h ∅) as [h1 lc]. simpl in H1.
  pose proof (alloc_le h1 {[ "components" := VObject lc ]}) as H2.
  destruct (alloc h1 _) as [h2 lb]. simpl in *.
  by apply (heap_le_trans h h1 h2).
Qed.

Lemma heap_le_lookup (h h' : heap) (l : loc) (o : gmap string value) :
  heap_le h h' → objects h !! l = Some o →
  objects h' !! l = Some o ∧ proto_of h' l = proto_of h l.
Proof.
  intros [Hobj Hproto] Hl. split.
  - by apply (lookup_weaken _ _ _ _ Hl Hobj).
  - unfold proto_of. rewrite Hproto; eauto.
Qed.

(** The mutation, step by step, from a store [h0] and a branch. *)
Lemma reduce_set_le (h h0 : heap) (branch : value) (payload : SetUIStatePayload) :
  heap_le h h0 →
  heap_le h
    (let key := toString (payload_id payload) in
     let components := own h0 branch "components" in
     let '(h1, prior) := priorEntry h0 (own h0 components key) in
     let '(h2, entry) := merge h1 prior (payload_state payload) in
     let '(h3, lc) :=
       alloc h2 (<[key := entry]> (ownEnumerable h2 components)) in
     let '(h4, lb) :=
       alloc h3 (<["components" := VObject lc]> (ownEnumerable h3 branch)) in
     (h4, VObject lb)).1.
Proof.
  intros Hsub. cbv zeta.
  pose proof (priorEntry_le h0
                (own h0 (own h0 branch "components")
                   (toString (payload_id payload)))) as H1.
  destruct (priorEntry h0 _) as [h1 prior]. simpl in H1.
  pose proof (merge_le h1 prior (payload_state payload)) as H2.
  destruct (merge h1 prior _) as [h2 entry]. simpl in H2.
  pose proof (alloc_le h2 (<[toString (payload_id payload) := entry]>
                             (ownEnumerable h2 (own h0 branch "components"))))
    as H3.
  destruct (alloc h2 _) as [h3 lc]. simpl in H3.
  pose proof (alloc_le h3 (<["components" := VObject lc]>
                             (ownEnumerable h3 branch))) as H4.
  destruct (alloc h3 _) as [h4 lb]. simpl in H4. simpl.
  eauto using heap_le_trans.
Qed.

(** The reducer writes to no object that existed before the call. *)
Lemma reduce_le (h : heap) branch action : heap_le h (reduce h branch action).1.
Proof.
  unfold reduce.
  assert (Hstart :
    heap_le h (match branch with
               | VUndefined => initialBranch h
               | _ => (h, branch)
               end).1).
  { destruct branch; try apply heap_le_refl. apply initialBranch_le. }
  destruct (match branch with
            | VUndefined => initialBranch h
            | _ => (h, branch)
            end) as [h0 b].
  simpl in Hstart.
  destruct action as [payload|type]; [|done].
  by apply reduce_set_le.
Qed.

(** C6. Applying the mutation action for an id to a branch yields a new
    branch object that differs from the old one in its components map
    only, and a new components map that differs from the old one in the
    entry of that id only: the entry of every other id is the same
    reference as before, and every object that existed before the call,
    those entries included, has the properties and the prototype it
    had. *)
Theorem reduce_key_isolation
    (h : heap) (lb lc : loc) (br comps : gmap string value) (i st : value) :
  objects h !! lb = Some br →
  br !! "components" = Some (VObject lc) →
  objects h !! lc = Some comps →
  let r := reduce h (VObject lb)
             (SET_UI_STATE {| payload_id := i; payload_state := st |}) in
  ∃ lb' lc' entry comps',
    r.2 = VObject lb' ∧
    objects h !! lb' = None ∧ objects h !! lc' = None ∧
    objects r.1 !! lb' = Some (<["components" := VObject lc']> br) ∧
    objects r.1 !! lc' = Some comps' ∧
    comps' = <[toString i := entry]> comps ∧
    (∀ b, b ≠ toString i → comps' !! b = comps !! b) ∧
    (∀ l, is_Some (objects h !! l) →
          objects r.1 !! l = objects h !! l ∧ proto_of r.1 l = proto_of h l).
Proof.
  intros Hlb Hcomp Hlc r.
  pose proof (reduce_le h (VObject lb)
                (SET_UI_STATE {| payload_id := i; payload_state := st |})) as Hle.
  fold r in Hle. revert Hle. unfold r, reduce. clear r.
  cbn -[merge priorEntry alloc fresh ownEnumerable heap_le].
  rewrite Hlb. cbn -[merge priorEntry alloc fresh ownEnumerable heap_le].
  rewrite Hcomp. cbn -[merge priorEntry alloc fresh ownEnumerable heap_le].
  rewrite Hlc. cbn -[merge priorEntry alloc fresh ownEnumerable heap_le].
  pose proof (priorEntry_le h (default VUndefined (comps !! toString i))) as H1.
  destruct (priorEntry h _) as [h1 prior]. simpl in H1.
  pose proof (merge_le h1 prior st) as H2.
  destruct (merge h1 prior st) as [h2 entry]. simpl in H2.
  assert (H02 : heap_le h h2) by eauto using heap_le_trans.
  destruct (heap_le_lookup h h2 lc comps H02 Hlc) as [Hlc2 _].
  change (ownEnumerable h2 (VObject lc)) with (default ∅ (objects h2 !! lc)).
  rewrite Hlc2. cbn [default from_option id].
  pose proof (alloc_le h2 (<[toString i := entry]> comps)) as H3.
  pose proof (alloc_lookup h2 (<[toString i := entry]> comps)) as [Hnew3 _].
  pose proof (alloc_fresh h2 (<[toString i := entry]> comps)) as Hfresh3.
  destruct (alloc h2 _) as [h3 lc']. simpl in H3, Hnew3, Hfresh3.
  assert (H03 : heap_le h h3) by eauto using heap_le_trans.
  destruct (heap_le_lookup h h3 lb br H03 Hlb) as [Hlb3 _].
  change (ownEnumerable h3 (VObject lb)) with (default ∅ (objects h3 !! lb)).
  rewrite Hlb3. cbn [default from_option id].
  pose proof (alloc_le h3 (<["components" := VObject lc']> br)) as H4.
  pose proof (alloc_lookup h3 (<["components" := VObject lc']> br)) as [Hnew4 _].
  pose proof (alloc_fresh h3 (<["components" := VObject lc']> br)) as Hfresh4.
  destruct (alloc h3 _) as [h4 lb']. simpl in H4, Hnew4, Hfresh4. simpl.
  intros Hle.
  exists lb', lc', entry, (<[toString i := entry]> comps).
  split; [done|]. split; [|split].
  - destruct (objects h !! lb') as [o|] eqn:Ho; [|done].
    destruct (heap_le_lookup h h3 lb' o H03 Ho) as [Ho3 _]. congruence.
  - destruct (objects h !! lc') as [o|] eqn:Ho; [|done].
    destruct (heap_le_lookup h h2 lc' o H02 Ho) as [Ho2 _]. congruence.
  - split; [done|]. split.
    { destruct (heap_le_lookup h3 h4 lc' _ H4 Hnew3) as [Hx _]. exact Hx. }
    split; [done|]. split.
    + intros b Hb. by rewrite lookup_insert_ne.
    + intros l [o Ho]. rewrite Ho. by apply (heap_le_lookup h h4 l o).
Qed.

Lemma reduce_key_isolation_witness :
  let r := reduce sampleHeap (VObject 2)
             (SET_UI_STATE {| payload_id := VString "a";
                              payload_state := VObject 6 |}) in
  ∃ lb' lc' entry comps',
    r.2 = VObject lb' ∧
    objects sampleHeap !! lb' = None ∧ objects sampleHeap !! lc' = None ∧
    objects r.1 !! lb' = Some (<["components" := VObject lc']>
                                 {[ "components" := VObject 3 ]}) ∧
    objects r.1 !! lc' = Some comps' ∧
    comps' = <[toString (VString "a") := entry]>
               {[ "a" := VObject 4; "b" := VObject 5 ]} ∧
    (∀ b, b ≠ toString (VString "a") →
          comps' !! b
          = ({[ "a" := VObject 4; "b" := VObject 5 ]} : gmap string value) !! b) ∧
    (∀ l, is_Some (objects sampleHeap !! l) →
          objects r.1 !! l = objects sampleHeap !! l ∧
          proto_of r.1 l = proto_of sampleHeap l).
Proof.
  apply (reduce_key_isolation sampleHeap 2 3); reflexivity.
Defined.

(** The mutation [{ id: "a", state: { count: 1 } }] on the sample store:
    the entry of "a" becomes the new object [{ count: 1, label: "x" }],
    the entry of "b" is the reference it was. *)
Example reduce_sample :
  let r := reduce sampleHeap (VObject 2)
             (SET_UI_STATE {| payload_id := VString "a";
                              payload_state := VObject 6 |}) in
  r.2 = VObject 10 ∧
  own r.1 (own r.1 (own r.1 r.2 "components") "a") "count" = VNumber 1 ∧
  own r.1 (own r.1 (own r.1 r.2 "components") "a") "label" = VString "x" ∧
  own r.1 (own r.1 r.2 "components") "b" = VObject 5 ∧
  own r.1 (VObject 5) "count" = VNumber 7 ∧
  own r.1 (own r.1 (VObject 2) "components") "a" = VObject 4.
Proof. vm_compute. repeat split. Qed.

Example reduce_initial :
  let r := reduce sampleHeap VUndefined (OtherAction "@@INIT") in
  ownEnumerable r.1 (own r.1 r.2 "components") = ∅ ∧
  reduce sampleHeap (VObject 2) (OtherAction "@@INIT") = (sampleHeap, VObject 2).
Proof. split; vm_compute; reflexivity. Qed.

(** ** More on merge *)

Lemma fresh_not_allocated (h : heap) (v : value) :
  allocated h v → v ≠ VObject (fresh (dom (objects h))).
Proof.
  intros Hv ->. simpl in Hv. destruct Hv as [o Ho].
  by rewrite fresh_objects in Ho.
Qed.

Lemma allocated_weaken (h h' : heap) (v : value) :
  heap_le h h' → allocated h v → allocated h' v.
Proof.
  intros [Hsub _]. destruct v as [| | | | |l|b]; try done.
  simpl. intros [o Ho]. exists o. by apply (lookup_weaken _ _ _ _ Ho Hsub).
Qed.

Lemma string_chars_primitive (s k : string) (v : value) :
  string_chars s !! k = Some v → isString v = true.
Proof.
  unfold string_chars. intros Hk.
  apply elem_of_list_to_map_2 in Hk.
  apply elem_of_lookup_imap in Hk as (i & c & Heq & _).
  by inversion Heq.
Qed.

Lemma ownEnumerable_allocated (h : heap) (v : value) (k : string) (x : value) :
  closed h → ownEnumerable h v !! k = Some x → allocated h x.
Proof.
  intros (Hclosed & _ & _) Hk. destruct v as [| | | |s|l|b]; simpl in Hk;
    try by rewrite lookup_empty in Hk.
  - apply string_chars_primitive in Hk. by destruct x.
  - destruct (objects h !! l) as [o|] eqn:Hl; simpl in Hk;
      [|by rewrite lookup_empty in Hk].
    exact (Hclosed l o Hl k x Hk).
Qed.

(** The record of the result when the first argument installs no
    prototype: no own [__proto__] is left at all. *)
Lemma merge_record_first_plain (h : heap) obj1 obj2 :
  allocated h obj2 →
  (∀ v, ownEnumerable h obj1 !! "__proto__" = Some v → isObjectOrNull v = false) →
  record (merge h obj1 obj2)
  = delete "__proto__" (ownEnumerable h obj2)
    ∪ delete "__proto__" (ownEnumerable h obj1).
Proof.
  intros Hv HA. unfold record. rewrite merge_result.
  cbn [fst snd ownEnumerable objects]. rewrite lookup_insert_eq.
  cbn [default from_option id].
  rewrite (merge_second_source h obj1 obj2 Hv).
  set (to := fresh (dom (objects h))). set (A := ownEnumerable h obj1) in *.
  assert (Hown : proto_write_is_own
                   (Heap (<[to := delete "__proto__" A]> (objects h))
                         (assigned_protos false A to (delete to (protos h)))) to
                 = false).
  { unfold proto_write_is_own, proto_of. cbn [objects protos].
    rewrite lookup_insert_eq. cbn [default from_option id].
    rewrite lookup_delete_eq.
    assert (Hp : assigned_protos false A to (delete to (protos h)) !! to = None).
    { unfold assigned_protos. destruct (A !! "__proto__") as [v|] eqn:HAp.
      - rewrite (HA v eq_refl). apply lookup_delete_eq.
      - apply lookup_delete_eq. }
    by rewrite Hp. }
  by rewrite Hown.
Qed.

(** X1. A source that is [undefined] or [null] is skipped: merging an
    object with such a value, on either side, gives a new object with the
    properties of that object other than an own [__proto__]. *)
Theorem merge_skips_nullish (h : heap) (l : loc) (S : gmap string value) (v : value) :
  objects h !! l = Some S →
  v = VUndefined ∨ v = VNull →
  record (merge h (VObject l) v) = delete "__proto__" S ∧
  record (merge h v (VObject l)) = delete "__proto__" S ∧
  (merge h (VObject l) v).2 ≠ VObject l ∧
  (merge h v (VObject l)).2 ≠ VObject l.
Proof.
  intros Hl Hv.
  assert (Hne : VObject (fresh (dom (objects h))) ≠ VObject l).
  { intros Heq. symmetry in Heq. revert Heq.
    apply fresh_not_allocated. simpl. eauto. }
  rewrite !merge_value. split; [|split; [|done]].
  - rewrite merge_record_plain; [|by destruct Hv as [-> | ->]..].
    cbn [ownEnumerable]. rewrite Hl. cbn [default from_option id].
    destruct Hv as [-> | ->]; cbn [ownEnumerable];
      by rewrite (left_id_L ∅ (∪)).
  - rewrite merge_record_first_plain.
    + cbn [ownEnumerable]. rewrite Hl. cbn [default from_option id].
      destruct Hv as [-> | ->]; cbn [ownEnumerable];
        by rewrite delete_empty, (right_id_L ∅ (∪)).
    + simpl. eauto.
    + intros x. destruct Hv as [-> | ->]; cbn [ownEnumerable];
        by rewrite lookup_empty.
Qed.

Lemma merge_skips_nullish_witness :
  record (merge sampleHeap (VObject 5) VUndefined)
    = delete "__proto__" {[ "count" := VNumber 7 ]} ∧
  record (merge sampleHeap VUndefined (VObject 5))
    = delete "__proto__" {[ "count" := VNumber 7 ]} ∧
  (merge sampleHeap (VObject 5) VUndefined).2 ≠ VObject 5 ∧
  (merge sampleHeap VUndefined (VObject 5)).2 ≠ VObject 5.
Proof.
  apply (merge_skips_nullish sampleHeap 5); [reflexivity | by left].
Defined.

(** X3. Applying the same update twice changes nothing more: when the
    update [b] has no own [__proto__], merging it into the merge of [a]
    and [b] gives the record of that merge. *)
Theorem merge_idempotent (h : heap) (a b : value) :
  allocated h b →
  ownEnumerable h b !! "__proto__" = None →
  let ab := merge h a b in
  record (merge ab.1 ab.2 b) = record ab.
Proof.
  intros Hb Hp ab.
  pose proof (merge_le h a b) as Hle. fold ab in Hle.
  assert (Hb' : allocated ab.1 b) by by apply (allocated_weaken h).
  assert (HB : ownEnumerable ab.1 b = ownEnumerable h b)
    by by apply ownEnumerable_allocated_le.
  rewrite merge_record_plain by (by rewrite ?HB).
  rewrite HB. fold (record ab). unfold ab.
  rewrite (merge_record_plain h a b Hb Hp).
  rewrite delete_union, (delete_id (ownEnumerable h b)) by done.
  rewrite delete_delete_eq.
  by rewrite (assoc_L (∪)), (idemp_L (∪)).
Qed.

Lemma merge_idempotent_witness :
  let ab := merge sampleHeap (VObject 4) (VObject 6) in
  record (merge ab.1 ab.2 (VObject 6)) = record ab.
Proof.
  apply (merge_idempotent sampleHeap (VObject 4) (VObject 6)).
  - vm_compute. eauto.
  - reflexivity.
Defined.

Lemma chain_ends_le (h h' : heap) (n m : nat) (v : value) :
  heap_le h h' → n ≤ m → chain_ends n h v = true → chain_ends m h' v = true.
Proof.
  intros Hle. revert m v.
  induction n as [|n IH]; intros m v Hnm; destruct v as [| | | | |l|b];
    simpl; try done; destruct m as [|m]; try lia; try done; simpl.
  destruct (objects h !! l) as [o|] eqn:Hl; [|done].
  destruct (heap_le_lookup h h' l o Hle Hl) as [-> ->].
  apply IH. lia.
Qed.

Lemma assigned_protos_lookup
    (own : bool) (S : gmap string value) (to : loc) (ps : gmap loc value)
    (l : loc) (p : value) :
  assigned_protos own S to ps !! l = Some p →
  (l = to ∧ isObjectOrNull p = true ∧ S !! "__proto__" = Some p) ∨
  ps !! l = Some p.
Proof.
  unfold assigned_protos. destruct own; [by right|].
  destruct (S !! "__proto__") as [v|] eqn:HS; [|by right].
  destruct (isObjectOrNull v) eqn:Hv; [|by right].
  destruct (decide (to = l)) as [<-|Hne].
  - rewrite lookup_insert_eq. intros [= <-]. by left.
  - rewrite lookup_insert_ne by done. by right.
Qed.

(** The store that [merge] returns is closed when the one it is given
    is. *)
Lemma merge_closed (h : heap) (a b : value) :
  closed h → allocated h a → allocated h b →
  closed (merge h a b).1.
Proof.
  intros Hclosed Ha Hb.
  pose proof (merge_le h a b) as Hle.
  pose proof (merge_dom h a b) as Hdom.
  pose proof (fresh_objects h) as Hfresh.
  pose proof (merge_result h a b) as Hres. cbv zeta in Hres.
  rewrite (merge_second_source h a b Hb) in Hres.
  set (to := fresh (dom (objects h))) in *.
  set (A := ownEnumerable h a) in *. set (B := ownEnumerable h b) in *.
  set (own := proto_write_is_own _ to) in Hres.
  assert (Hobj : objects (merge h a b).1
                 = <[to := assigned_fields own B (delete "__proto__" A)]> (objects h))
    by by rewrite Hres.
  assert (Hpro : protos (merge h a b).1
                 = assigned_protos own B to
                     (assigned_protos false A to (delete to (protos h))))
    by by rewrite Hres.
  assert (Hnew : ∀ k x, assigned_fields own B (delete "__proto__" A) !! k = Some x →
                        allocated h x).
  { intros k x Hk. unfold assigned_fields in Hk.
    apply lookup_union_Some_raw in Hk as [Hk | [_ Hk]].
    - apply (ownEnumerable_allocated h b k x Hclosed). fold B.
      destruct own; [done|]. by apply lookup_delete_Some in Hk as [_ Hk].
    - apply (ownEnumerable_allocated h a k x Hclosed). fold A.
      by apply lookup_delete_Some in Hk as [_ Hk]. }
  assert (Hprotos : ∀ l p, protos (merge h a b).1 !! l = Some p →
            (l = to ∧ isObjectOrNull p = true ∧ allocated h p) ∨
            (l ≠ to ∧ protos h !! l = Some p)).
  { intros l p. rewrite Hpro. intros Hl.
    apply assigned_protos_lookup in Hl as [(-> & Hp & HB) | Hl].
    { left. split; [done|]. split; [done|].
      by apply (ownEnumerable_allocated h b "__proto__" p Hclosed). }
    apply assigned_protos_lookup in Hl as [(-> & Hp & HA) | Hl].
    { left. split; [done|]. split; [done|].
      by apply (ownEnumerable_allocated h a "__proto__" p Hclosed). }
    right. apply lookup_delete_Some in Hl as [Hne Hl]. split; [congruence|done]. }
  destruct Hclosed as (Hfields & Hps & Hends).
  split; [|split].
  - intros l o Hl k x Hk. apply (allocated_weaken h _ x Hle).
    rewrite Hobj in Hl.
    destruct (decide (l = to)) as [->|Hne].
    + rewrite lookup_insert_eq in Hl. injection Hl as <-. by apply (Hnew k).
    + rewrite lookup_insert_ne in Hl by done. exact (Hfields l o Hl k x Hk).
  - intros l p Hl. destruct (Hprotos l p Hl) as [(-> & Hp & Halloc) | [Hne Hold]].
    + split; [|split]; [|by apply (allocated_weaken h)|done].
      rewrite Hobj, lookup_insert_eq. eauto.
    + destruct (Hps l p Hold) as ([o Ho] & Halloc & Hp).
      split; [|split]; [|by apply (allocated_weaken h)|done].
      exists o. by apply (heap_le_lookup h _ l o Hle Ho).
  - assert (Hsize : size (objects (merge h a b).1) = S (size (objects h))).
    { rewrite <- !size_dom, Hdom. fold to.
      rewrite size_union by (apply not_elem_of_dom in Hfresh; set_solver).
      by rewrite size_singleton. }
    intros l o Hl. rewrite Hsize.
    destruct (decide (l = to)) as [->|Hne].
    + cbn [chain_ends]. rewrite Hl.
      unfold proto_of.
      destruct (protos (merge h a b).1 !! to) as [p|] eqn:Hp;
        cbn [default from_option id]; [|by destruct (size (objects h))].
      destruct (Hprotos to p Hp) as [(_ & _ & Halloc) | [? _]]; [|done].
      destruct p as [| | | | |lp|bp]; try by destruct (size (objects h)).
      destruct Halloc as [op Hop].
      apply (chain_ends_le h _ (size (objects h))); [done|lia|].
      exact (Hends lp op Hop).
    + rewrite Hobj, lookup_insert_ne in Hl by done.
      apply (chain_ends_le h _ (size (objects h))); [done|lia|].
      exact (Hends l o Hl).
Qed.

Lemma merge_allocated (h : heap) (a b : value) :
  allocated (merge h a b).1 (merge h a b).2.
Proof.
  rewrite merge_value. cbn [allocated]. apply elem_of_dom.
  rewrite merge_dom. set_solver.
Qed.

(** X4. [merge] keeps the store well formed: in a closed store, with
    arguments that are not dangling, the store it returns is closed and
    its result is allocated there. *)
Theorem merge_preserves_closed (h : heap) (a b : value) :
  closed h → allocated h a → allocated h b →
  closed (merge h a b).1 ∧ allocated (merge h a b).1 (merge h a b).2.
Proof.
  intros Hclosed Ha Hb. split.
  - by apply merge_closed.
  - apply merge_allocated.
Qed.

Lemma merge_preserves_closed_witness :
  closed (merge sampleHeap (VObject 4) (VObject 6)).1 ∧
  allocated (merge sampleHeap (VObject 4) (VObject 6)).1
            (merge sampleHeap (VObject 4) (VObject 6)).2.
Proof.
  apply (merge_preserves_closed sampleHeap (VObject 4) (VObject 6)).
  - apply (bool_decide_unpack _). vm_compute. exact I.
  - vm_compute. eauto.
  - vm_compute. eauto.
Defined.

(** ** More on property access *)

Lemma bind_ext_result {A B} (m : M A) (k k' : A → M B) :
  (∀ a, result m = Return a → k a = k' a) → m ≫= k = m ≫= k'.
Proof.
  intros Hk. destruct m as [w [a|e]]; [|done].
  rewrite !bind_return. by rewrite (Hk a).
Qed.

Lemma get_own (h : heap) (l : loc) (o : gmap string value) (k : string) (v : value) :
  objects h !! l = Some o → o !! k = Some v → get h (VObject l) k = mret v.
Proof. intros Hl Hk. unfold get. by rewrite (lookup_prop_own h l o k v). Qed.

Lemma get_plain_absent (h : heap) (l : loc) (o : gmap string value) (k : string) :
  objects h !! l = Some o → o !! k = None → protos h !! l = None →
  inheritedName k = false →
  get h (VObject l) k = mret VUndefined.
Proof.
  intros Hl Hk Hp Hname. unfold get.
  by rewrite (lookup_prop_plain_absent h l o k).
Qed.

Lemma get_console (h : heap) (v : value) (k : string) : console (get h v k) = [].
Proof. by destruct v. Qed.

Lemma get_truthy (h : heap) (v : value) (k : string) :
  toBoolean v = true → ∃ x, get h v k = mret x.
Proof. destruct v; simpl; try done; eauto. Qed.

Lemma chain_lookup_primitive (fuel : nat) (h : heap) (v : value) (k : string) :
  (∀ l, v ≠ VObject l) →
  chain_lookup fuel h v k
  = match v with VBuiltin _ => objectPrototype_lookup k | _ => NotFound end.
Proof.
  intros Hv. destruct v as [| | | | |l|b], fuel; try done; by destruct (Hv l).
Qed.

(** A chain that ends within [n] objects is read alike with any larger
    fuel, in any larger store. *)
Lemma chain_lookup_le (h h' : heap) (n m m' : nat) (v : value) (k : string) :
  heap_le h h' → chain_ends n h v = true → n ≤ m → n ≤ m' →
  chain_lookup m' h' v k = chain_lookup m h v k.
Proof.
  intros Hle. revert m m' v.
  induction n as [|n IH]; intros m m' v Hends Hm Hm';
    destruct v as [| | | | |l|b];
    try (by rewrite !chain_lookup_primitive by done); try done.
  destruct m as [|m]; [lia|]. destruct m' as [|m']; [lia|].
  simpl in *. destruct (objects h !! l) as [o|] eqn:Hl; [|done].
  destruct (heap_le_lookup h h' l o Hle Hl) as [-> ->].
  destruct (o !! k); [done|]. apply IH; [done|lia..].
Qed.

Lemma objectPrototype_lookup_builtin (k : string) (x : value) :
  objectPrototype_lookup k = FoundData x → ∃ b, x = VBuiltin b.
Proof.
  unfold objectPrototype_lookup.
  destruct (String.eqb k "__proto__"); [done|].
  destruct (String.eqb k "constructor"); [intros [= <-]; eauto|].
  destruct (bool_decide _); [intros [= <-]; eauto|done].
Qed.

Lemma proto_of_allocated (h : heap) (l : loc) : closed h → allocated h (proto_of h l).
Proof.
  intros (_ & Hps & _). unfold proto_of.
  destruct (protos h !! l) as [p|] eqn:Hp; [|done].
  by destruct (Hps l p Hp) as (_ & Halloc & _).
Qed.

Lemma chain_lookup_allocated (fuel : nat) (h : heap) (v : value) (k : string) (x : value) :
  closed h → chain_lookup fuel h v k = FoundData x → allocated h x.
Proof.
  intros Hclosed. revert v.
  induction fuel as [|n IH]; intros v; destruct v as [| | | | |l|b];
    simpl; try done;
    try (by intros [b' ->]%objectPrototype_lookup_builtin).
  destruct (objects h !! l) as [o|] eqn:Hl; [|done].
  destruct (o !! k) as [y|] eqn:Hk.
  - intros [= <-]. destruct Hclosed as (Hfields & _). exact (Hfields l o Hl k y Hk).
  - apply IH.
Qed.

Lemma lookup_prop_le (h h' : heap) (l : loc) (k : string) :
  closed h → heap_le h h' → is_Some (objects h !! l) →
  lookup_prop h' l k = lookup_prop h l k.
Proof.
  intros Hclosed Hle [o Ho]. unfold lookup_prop.
  destruct Hclosed as (_ & _ & Hends).
  pose proof (Hends l o Ho) as Hend. cbv beta in Hend.
  assert (Hsize : size (objects h) ≤ size (objects h'))
    by (apply map_subseteq_size, Hle).
  rewrite (chain_lookup_le h h' (size (objects h)) (chain_fuel h) (chain_fuel h'))
    by (try done; unfold chain_fuel; lia).
  by destruct (heap_le_lookup h h' l o Hle Ho) as [_ ->].
Qed.

Lemma get_weaken (h h' : heap) (v : value) (k : string) :
  closed h → heap_le h h' → allocated h v → get h' v k = get h v k.
Proof.
  intros Hclosed Hle Hv. destruct v as [| | | | |l|b]; try done.
  unfold get. by rewrite (lookup_prop_le h h' l k).
Qed.

Lemma string_get_primitive (s k : string) (l : loc) : string_get s k ≠ VObject l.
Proof.
  unfold string_get. destruct (String.eqb k "length"); [done|].
  destruct (string_chars s !! k) as [x|] eqn:Hk; [|done].
  apply string_chars_primitive in Hk. simpl. by destruct x.
Qed.

Lemma get_allocated (h : heap) (v : value) (k : string) (x : value) :
  closed h → result (get h v k) = Return x → allocated h x.
Proof.
  intros Hclosed Hx. destruct x as [| | | | |lx|bx]; try done.
  destruct v as [| | | |s|l|b]; simpl in Hx; try done.
  - injection Hx as Hx. by apply string_get_primitive in Hx.
  - injection Hx as Hx. unfold lookup_prop in Hx.
    destruct (chain_lookup (chain_fuel h) h (VObject l) k) as [y| |] eqn:Hc;
      try done.
    + subst y. by apply (chain_lookup_allocated (chain_fuel h) h (VObject l) k).
    + rewrite <- Hx. by apply proto_of_allocated.
  - injection Hx as Hx. unfold builtin_prop in Hx.
    destruct (objectPrototype_lookup k) as [y| |] eqn:Hc; try done.
    + apply objectPrototype_lookup_builtin in Hc as [b' ->]. done.
    + revert Hx. unfold ObjectPrototype.
      by repeat (case_match; try done).
Qed.

(** ** The accessor at the end of a prototype chain *)

Lemma found_accessor_match (x y : found) :
  (x = FoundProtoAccessor ↔ y = FoundProtoAccessor) →
  match x with FoundProtoAccessor => false | _ => true end
  = match y with FoundProtoAccessor => false | _ => true end.
Proof.
  intros [Hxy Hyx]. destruct x, y; try done.
  - by specialize (Hyx eq_refl).
  - by specialize (Hxy eq_refl).
  - by specialize (Hxy eq_refl).
  - by specialize (Hyx eq_refl).
Qed.

(** A chain that reaches the accessor does so in every larger store and
    with every larger bound. *)
Lemma chain_lookup_accessor_mono (h h' : heap) (f f' : nat) (v : value) (k : string) :
  heap_le h h' → f ≤ f' →
  chain_lookup f h v k = FoundProtoAccessor →
  chain_lookup f' h' v k = FoundProtoAccessor.
Proof.
  intros Hle. revert f' v.
  induction f as [|f IH]; intros f' v Hf Hacc;
    destruct v as [| | | | |l|b];
    try (by rewrite chain_lookup_primitive in * by done); try done.
  destruct f' as [|f']; [lia|].
  simpl in *. destruct (objects h !! l) as [o|] eqn:Hl; [|done].
  destruct (heap_le_lookup h h' l o Hle Hl) as [-> ->].
  destruct (o !! k); [done|]. apply IH; [lia|done].
Qed.

(** Taking an object out of the store: a chain that reaches the accessor
    either avoids the object or passes through it. *)
Lemma chain_lookup_delete (h : heap) (l : loc) (k : string) (g : nat) (w : value) :
  chain_lookup g h w k = FoundProtoAccessor →
  chain_lookup g (Heap (delete l (objects h)) (protos h)) w k = FoundProtoAccessor ∨
  ∃ g', g' ≤ g ∧ chain_lookup g' h (VObject l) k = FoundProtoAccessor.
Proof.
  revert w. induction g as [|g IH]; intros w Hacc;
    destruct w as [| | | | |l0|b];
    try (by left; rewrite chain_lookup_primitive in * by done); try done.
  destruct (decide (l0 = l)) as [->|Hne]; [right; by exists (S g)|].
  simpl in Hacc. simpl. rewrite lookup_delete_ne by done.
  destruct (objects h !! l0) as [o|]; [|done].
  destruct (o !! k); [done|].
  destruct (IH _ Hacc) as [Hdel|(g' & Hg' & Hl)]; [by left|].
  right. exists g'. split; [lia|done].
Qed.

(** A chain that reaches the accessor visits every object at most once:
    as many steps as the store has objects are enough. *)
Lemma chain_lookup_bound (k : string) (n : nat) :
  ∀ (h : heap) (v : value) (f : nat),
    size (objects h) ≤ n →
    chain_lookup f h v k = FoundProtoAccessor →
    chain_lookup n h v k = FoundProtoAccessor.
Proof.
  induction n as [|n IHn]; intros h v f; induction f as [f IHf] using lt_wf_ind;
    intros Hsize Hacc; destruct v as [| | | | |l|b];
    try (by rewrite chain_lookup_primitive in * by done).
  - assert (Hempty : objects h = ∅) by (apply map_size_empty_inv; lia).
    destruct f as [|f]; [done|]. simpl in Hacc.
    by rewrite Hempty, lookup_empty in Hacc.
  - destruct f as [|g]; [done|].
    pose proof Hacc as Hstep. simpl in Hstep.
    destruct (objects h !! l) as [o|] eqn:Hl; [|done].
    destruct (o !! k) eqn:Hk; [done|].
    destruct (chain_lookup_delete h l k g _ Hstep) as [Hdel|(g' & Hg' & Hagain)].
    + simpl. rewrite Hl, Hk.
      apply (chain_lookup_accessor_mono (Heap (delete l (objects h)) (protos h)) h n n);
        [|done|].
      * split; cbn [objects protos]; [apply delete_subseteq|done].
      * apply (IHn _ _ g); [|done]. cbn [objects].
        rewrite map_size_delete_Some by done. lia.
    + apply (IHf g'); [lia|done..].
Qed.

(** The bound that [set_prop] uses is large enough. *)
Lemma chain_lookup_accessor_fuel (h : heap) (f : nat) (v : value) (k : string) :
  chain_lookup f h v k = FoundProtoAccessor →
  chain_lookup (chain_fuel h) h v k = FoundProtoAccessor.
Proof.
  intros Hacc.
  apply (chain_lookup_accessor_mono h h (size (objects h)));
    [apply heap_le_refl|unfold chain_fuel; lia|].
  by apply (chain_lookup_bound k _ h v f).
Qed.

Lemma chain_lookup_accessor_le (h h' : heap) (v : value) (k : string) :
  heap_le h h' →
  chain_lookup (chain_fuel h) h v k = FoundProtoAccessor →
  chain_lookup (chain_fuel h') h' v k = FoundProtoAccessor.
Proof.
  intros Hle. apply chain_lookup_accessor_mono; [done|].
  unfold chain_fuel. apply le_n_S, map_subseteq_size, Hle.
Qed.

(** A new object that has the property as its own is on no chain that
    reaches the accessor. *)
Lemma chain_lookup_new_own
    (h h' : heap) (to : loc) (F : gmap string value) (k : string) (v : value) :
  (∀ l, l ≠ to → objects h' !! l = objects h !! l ∧ protos h' !! l = protos h !! l) →
  objects h' !! to = Some F → is_Some (F !! k) →
  chain_lookup (chain_fuel h') h' v k = FoundProtoAccessor →
  chain_lookup (chain_fuel h) h v k = FoundProtoAccessor.
Proof.
  intros Hother Hto [x Hx] Hacc.
  apply (chain_lookup_accessor_fuel h (chain_fuel h')).
  revert v Hacc. generalize (chain_fuel h').
  induction n as [|n IH]; intros v Hacc; destruct v as [| | | | |l|b];
    try (by rewrite chain_lookup_primitive in * by done); try done.
  simpl in *. destruct (decide (l = to)) as [->|Hne].
  - by rewrite Hto, Hx in Hacc.
  - destruct (Hother l Hne) as [Ho Hp]. unfold proto_of in *.
    rewrite Ho, Hp in Hacc.
    destruct (objects h !! l) as [o|]; [|done].
    destruct (o !! k); [done|]. by apply IH.
Qed.

(** A new object whose prototype is the start of the chain is on no
    chain that reaches the accessor. *)
Lemma chain_lookup_new_cycle
    (h h' : heap) (to : loc) (F : gmap string value) (k : string) (v : value) :
  (∀ l, l ≠ to → objects h' !! l = objects h !! l ∧ protos h' !! l = protos h !! l) →
  objects h' !! to = Some F → proto_of h' to = v →
  chain_lookup (chain_fuel h') h' v k = FoundProtoAccessor →
  chain_lookup (chain_fuel h) h v k = FoundProtoAccessor.
Proof.
  intros Hother Hto Hproto Hacc.
  apply (chain_lookup_accessor_fuel h (chain_fuel h')).
  revert Hacc. generalize (chain_fuel h'). intros f.
  assert (Hstep : ∀ g w,
            chain_lookup g h' w k = FoundProtoAccessor →
            chain_lookup g h w k = FoundProtoAccessor ∨
            ∃ g', g' < g ∧ chain_lookup g' h' v k = FoundProtoAccessor).
  { induction g as [|g IH]; intros w Hacc; destruct w as [| | | | |l|b];
      try (by left; rewrite chain_lookup_primitive in * by done); try done.
    simpl in Hacc. destruct (decide (l = to)) as [->|Hne].
    - rewrite Hto in Hacc. destruct (F !! k); [done|].
      rewrite Hproto in Hacc. right. exists g. split; [lia|done].
    - destruct (Hother l Hne) as [Ho Hp]. simpl. unfold proto_of in *.
      rewrite Ho, Hp in Hacc.
      destruct (objects h !! l) as [o|]; [|done].
      destruct (o !! k); [done|].
      destruct (IH _ Hacc) as [Hh|(g' & Hg' & Hagain)]; [by left|].
      right. exists g'. split; [lia|done]. }
  induction f as [f IHf] using lt_wf_ind. intros Hacc.
  destruct (Hstep f v Hacc) as [Hh|(g' & Hg' & Hagain)]; [done|].
  apply (chain_lookup_accessor_mono h h g'); [apply heap_le_refl|lia|].
  by apply IHf.
Qed.

(** ** Successive merges *)

Lemma first_source_le (h : heap) (A : gmap string value) :
  let to := fresh (dom (objects h)) in
  heap_le h (Heap (<[to := delete "__proto__" A]> (objects h))
                  (assigned_protos false A to (delete to (protos h)))).
Proof.
  intros to. pose proof (fresh_objects h) as Hfresh. fold to in Hfresh.
  split; cbn [objects protos].
  - by apply insert_subseteq.
  - intros l [o Ho]. assert (Hne : to ≠ l) by (intros <-; congruence).
    unfold assigned_protos.
    destruct (A !! "__proto__") as [v|]; [destruct (isObjectOrNull v)|];
      by rewrite ?lookup_insert_ne, lookup_delete_ne by done.
Qed.

Lemma first_source_other (h : heap) (A : gmap string value) (l : loc) :
  let to := fresh (dom (objects h)) in
  let h1 := Heap (<[to := delete "__proto__" A]> (objects h))
                 (assigned_protos false A to (delete to (protos h))) in
  l ≠ to →
  objects h1 !! l = objects h !! l ∧ protos h1 !! l = protos h !! l.
Proof.
  intros to h1 Hne. unfold h1, assigned_protos. cbn [objects protos].
  split; [by rewrite lookup_insert_ne|].
  destruct (A !! "__proto__") as [v|]; [destruct (isObjectOrNull v)|];
    by rewrite ?lookup_insert_ne, lookup_delete_ne by done.
Qed.

Lemma merge_other (h : heap) (x y : value) (l : loc) :
  l ≠ fresh (dom (objects h)) →
  objects (merge h x y).1 !! l = objects h !! l ∧
  protos (merge h x y).1 !! l = protos h !! l.
Proof.
  intros Hne. rewrite merge_store.
  destruct (Object_assign_other (alloc h ∅).1 (fresh (dom (objects h))) [x; y] l Hne)
    as [-> ->].
  unfold alloc. cbn [fst objects protos].
  by rewrite lookup_insert_ne, lookup_delete_ne.
Qed.

Lemma merge_record_lookup (h : heap) (x y : value) :
  objects (merge h x y).1 !! fresh (dom (objects h)) = Some (record (merge h x y)).
Proof.
  pose proof (merge_allocated h x y) as Hto. rewrite merge_value in Hto.
  destruct Hto as [o Ho]. unfold record. rewrite merge_value. cbn [ownEnumerable]. by rewrite Ho.
Qed.

(** The second source of [merge] keeps its own [__proto__] exactly when
    the first one blocks the setter. *)
Lemma merge_own (h : heap) (x : value) :
  let to := fresh (dom (objects h)) in
  let A := ownEnumerable h x in
  proto_write_is_own
    (Heap (<[to := delete "__proto__" A]> (objects h))
          (assigned_protos false A to (delete to (protos h)))) to
  = blocks_setter h A.
Proof.
  intros to A.
  pose proof (first_source_le h A) as Hle. cbv zeta in Hle. fold to in Hle.
  pose proof (first_source_other h A) as Hother. cbv zeta in Hother.
  fold to in Hother.
  set (h1 := Heap _ _) in *.
  unfold proto_write_is_own, blocks_setter.
  assert (Hto : objects h1 !! to = Some (delete "__proto__" A))
    by apply lookup_insert_eq.
  rewrite Hto. cbn [default from_option id]. rewrite lookup_delete_eq.
  assert (Hproto : proto_of h1 to
                   = match A !! "__proto__" with
                     | Some v => if isObjectOrNull v then v else ObjectPrototype
                     | None => ObjectPrototype
                     end).
  { unfold proto_of, h1, assigned_protos. cbn [protos].
    destruct (A !! "__proto__") as [v|]; [destruct (isObjectOrNull v)|];
      by rewrite ?lookup_insert_eq, ?lookup_delete_eq. }
  assert (Hop : chain_lookup (chain_fuel h1) h1 ObjectPrototype "__proto__"
                = FoundProtoAccessor)
    by by rewrite chain_lookup_primitive.
  destruct (A !! "__proto__") as [v|] eqn:Hv; [|by rewrite Hproto, Hop].
  destruct (isObjectOrNull v) eqn:Hobj; [|by rewrite Hproto, Hop].
  cbn [andb]. rewrite Hproto. apply found_accessor_match. split.
  - by apply (chain_lookup_new_cycle h h1 to (delete "__proto__" A)).
  - by apply chain_lookup_accessor_le.
Qed.

(** The record of the result of [merge]. *)
Lemma merge_record_blocks (h : heap) (x y : value) :
  allocated h y →
  record (merge h x y)
  = assigned_fields (blocks_setter h (ownEnumerable h x)) (ownEnumerable h y)
      (delete "__proto__" (ownEnumerable h x)).
Proof.
  intros Hy. unfold record. rewrite merge_result.
  cbn [fst snd ownEnumerable objects]. rewrite lookup_insert_eq.
  cbn [default from_option id].
  rewrite (merge_second_source h x y Hy).
  pose proof (merge_own h x) as Hown. cbv zeta in Hown.
  by rewrite Hown.
Qed.

Lemma assigned_fields_proto (own : bool) (B A : gmap string value) :
  assigned_fields own B (delete "__proto__" A) !! "__proto__"
  = if own then B !! "__proto__" else None.
Proof.
  unfold assigned_fields. rewrite lookup_union, !lookup_delete_eq.
  destruct own; [by destruct (B !! "__proto__")|].
  by rewrite lookup_delete_eq.
Qed.

Lemma assigned_fields_delete (own : bool) (B A : gmap string value) :
  delete "__proto__" (assigned_fields own B (delete "__proto__" A))
  = delete "__proto__" B ∪ delete "__proto__" A.
Proof.
  unfold assigned_fields. rewrite delete_union, !delete_delete_eq.
  by destruct own; rewrite ?delete_delete_eq.
Qed.

(** The result of a merge whose record has an own [__proto__] is on no
    chain that reaches the accessor. *)
Lemma merge_result_blocks (h : heap) (x y : value) (v : value) :
  is_Some (record (merge h x y) !! "__proto__") →
  chain_lookup (chain_fuel (merge h x y).1) (merge h x y).1 v "__proto__"
    = FoundProtoAccessor ↔
  chain_lookup (chain_fuel h) h v "__proto__" = FoundProtoAccessor.
Proof.
  intros Hown. split.
  - apply (chain_lookup_new_own h (merge h x y).1 (fresh (dom (objects h)))
             (record (merge h x y)));
      [intros l; apply merge_other|apply merge_record_lookup|done].
  - apply chain_lookup_accessor_le, merge_le.
Qed.

Lemma blocks_setter_proto (h : heap) (A : gmap string value) :
  blocks_setter h A = true → is_Some (A !! "__proto__").
Proof. unfold blocks_setter. by destruct (A !! "__proto__"). Qed.

Lemma blocks_setter_ext (h : heap) (X Y : gmap string value) :
  X !! "__proto__" = Y !! "__proto__" → blocks_setter h X = blocks_setter h Y.
Proof. unfold blocks_setter. by intros ->. Qed.

Lemma blocks_setter_merge (h : heap) (x y : value) (X : gmap string value) :
  is_Some (record (merge h x y) !! "__proto__") →
  blocks_setter (merge h x y).1 X = blocks_setter h X.
Proof.
  intros Hown. unfold blocks_setter.
  destruct (X !! "__proto__") as [v|]; [|done]. f_equal.
  by apply found_accessor_match, merge_result_blocks.
Qed.

(** X2. Successive merges compose: for arguments that are not dangling,
    merging [c] into the merge of [a] and [b] gives the same record as
    merging [a] with the merge of [b] and [c]. *)
Theorem merge_assoc (h : heap) (a b c : value) :
  allocated h a → allocated h b → allocated h c →
  let ab := merge h a b in
  let bc := merge h b c in
  record (merge ab.1 ab.2 c) = record (merge bc.1 a bc.2).
Proof.
  intros Ha Hb Hc. cbv zeta.
  pose proof (merge_le h a b) as Hab. pose proof (merge_le h b c) as Hbc.
  set (A := ownEnumerable h a). set (B := ownEnumerable h b).
  set (C := ownEnumerable h c).
  assert (Rab : record (merge h a b)
                = assigned_fields (blocks_setter h A) B (delete "__proto__" A))
    by by apply merge_record_blocks.
  assert (Rbc : record (merge h b c)
                = assigned_fields (blocks_setter h B) C (delete "__proto__" B))
    by by apply merge_record_blocks.
  assert (Pab : record (merge h a b) !! "__proto__"
                = if blocks_setter h A then B !! "__proto__" else None)
    by by rewrite Rab, assigned_fields_proto.
  assert (Pbc : record (merge h b c) !! "__proto__"
                = if blocks_setter h B then C !! "__proto__" else None)
    by by rewrite Rbc, assigned_fields_proto.
  rewrite (merge_record_blocks (merge h a b).1 (merge h a b).2 c) by by apply (allocated_weaken h).
  rewrite (merge_record_blocks (merge h b c).1 a (merge h b c).2) by apply merge_allocated.
  fold (record (merge h a b)) (record (merge h b c)).
  rewrite (ownEnumerable_allocated_le h (merge h a b).1 c Hab Hc).
  rewrite (ownEnumerable_allocated_le h (merge h b c).1 a Hbc Ha).
  fold A C.
  destruct (C !! "__proto__") as [vc|] eqn:HC.
  - assert (Hkey : blocks_setter (merge h a b).1 (record (merge h a b))
                   = blocks_setter (merge h b c).1 A && blocks_setter h B).
    { destruct (blocks_setter h B) eqn:HbB.
      - rewrite andb_true_r.
        rewrite (blocks_setter_merge h b c A) by (by rewrite Pbc).
        destruct (blocks_setter h A) eqn:HbA.
        + rewrite (blocks_setter_merge h a b)
            by (rewrite Pab; by apply (blocks_setter_proto h)).
          by rewrite (blocks_setter_ext h (record (merge h a b)) B).
        + unfold blocks_setter at 1. by rewrite Pab.
      - rewrite andb_false_r.
        destruct (blocks_setter h A) eqn:HbA;
          [|unfold blocks_setter at 1; by rewrite Pab].
        destruct (B !! "__proto__") as [vb|] eqn:HB;
          [|unfold blocks_setter at 1; by rewrite Pab].
        rewrite (blocks_setter_merge h a b) by by rewrite Pab.
        rewrite (blocks_setter_ext h (record (merge h a b)) B) by by rewrite Pab, HB.
        done. }
    rewrite Hkey, Rab, Rbc, !assigned_fields_delete. unfold assigned_fields.
    destruct (blocks_setter (merge h b c).1 A), (blocks_setter h B); cbn [andb];
      rewrite ?delete_union, ?delete_delete_eq;
      by rewrite ?(assoc_L (∪)).
  - set (x := blocks_setter (merge h a b).1 (record (merge h a b))). clearbody x.
    rewrite Rab, Rbc, !assigned_fields_delete. unfold assigned_fields.
    destruct x, (blocks_setter (merge h b c).1 A), (blocks_setter h B);
      rewrite ?delete_union, ?delete_delete_eq, ?(delete_id C) by done;
      by rewrite ?(assoc_L (∪)).
Qed.

Lemma merge_assoc_witness :
  let ab := merge sampleHeap (VObject 4) (VObject 5) in
  let bc := merge sampleHeap (VObject 5) (VObject 6) in
  record (merge ab.1 ab.2 (VObject 6)) = record (merge bc.1 (VObject 4) bc.2).
Proof.
  apply (merge_assoc sampleHeap (VObject 4) (VObject 5) (VObject 6));
    vm_compute; eauto.
Defined.

(** ** More on the selectors *)

Section MoreSelectorProperties.
Context {TProps : Type} `{!UIStateProps TProps}.
Variable DEFAULT_BRANCH_NAME : string.

Lemma uiStateBranchSelector_unfold (h : heap) (state : value) (props : option TProps) :
  uiStateBranchSelector DEFAULT_BRANCH_NAME h state props
  = selectBranch h (uiStateBranchSelectorSelector DEFAULT_BRANCH_NAME state props) state.
Proof.
  unfold uiStateBranchSelector, createSelector2, stateSelector.
  by rewrite !ret_bind.
Qed.

Lemma selectBranch_truthy (h : heap) selector (state b : value) :
  result (selectBranch h selector state) = Return b → toBoolean b = true.
Proof.
  unfold selectBranch.
  destruct (match selector with
            | Func f => f h state
            | Data _ => throw TypeError
            end) as [w [b'|e]]; [|done].
  rewrite bind_return.
  destruct (toBoolean b') eqn:Hb; simpl; [|done].
  by intros [= <-].
Qed.

Lemma default_locator_chosen (state : value) (props : option TProps) :
  truthy (props_and props props_uiStateBranchSelector) = false →
  uiStateBranchSelectorSelector DEFAULT_BRANCH_NAME state props
  = Func (defaultUIStateBranchSelector DEFAULT_BRANCH_NAME).
Proof.
  intros Hfalsy. unfold uiStateBranchSelectorSelector, js_or. by rewrite Hfalsy.
Qed.

(** X5. Branch selection never returns a falsy value: whatever it returns
    is neither [undefined] nor [null], so reading a property of it cannot
    raise. *)
Theorem uiStateBranchSelector_returns_truthy
    (h : heap) (state : value) (props : option TProps) (b : value) :
  result (uiStateBranchSelector DEFAULT_BRANCH_NAME h state props) = Return b →
  toBoolean b = true ∧ b ≠ VUndefined ∧ b ≠ VNull.
Proof.
  rewrite uiStateBranchSelector_unfold. intros Hb%selectBranch_truthy.
  by destruct b.
Qed.

(** X6. Components selection fails exactly when branch selection fails
    and writes nothing more to the console: reading [components] of the
    selected branch never throws. *)
Theorem uiStateComponentsSelector_fails_with_branch
    (h : heap) (state : value) (props : option TProps) :
  throws (uiStateComponentsSelector DEFAULT_BRANCH_NAME h state props)
    = throws (uiStateBranchSelector DEFAULT_BRANCH_NAME h state props) ∧
  console (uiStateComponentsSelector DEFAULT_BRANCH_NAME h state props)
    = console (uiStateBranchSelector DEFAULT_BRANCH_NAME h state props).
Proof.
  unfold uiStateComponentsSelector, createSelector1.
  pose proof (selectBranch_truthy h
                (uiStateBranchSelectorSelector DEFAULT_BRANCH_NAME state props)
                state) as Htruthy.
  rewrite <- uiStateBranchSelector_unfold in Htruthy.
  destruct (uiStateBranchSelector DEFAULT_BRANCH_NAME h state props)
    as [w [b|e]]; [|done].
  destruct (get_truthy h b "components" (Htruthy b eq_refl)) as [x Hx].
  rewrite bind_return, Hx. simpl. by rewrite (right_id_L [] (++)).
Qed.

(** X7. An error of branch selection comes first: when the branch cannot
    be selected, per-id selection throws that same error, whatever the
    [uiStateId] prop is. *)
Theorem uiStateSelector_branch_error_first
    (h : heap) (state : value) (props : option TProps)
    (w : list string) (e : error) :
  uiStateBranchSelector DEFAULT_BRANCH_NAME h state props = Run w (Throw e) →
  uiStateSelector DEFAULT_BRANCH_NAME h state props = Run w (Throw e).
Proof.
  intros Hb.
  unfold uiStateSelector, createSelector2, uiStateComponentsSelector,
    createSelector1.
  by rewrite Hb.
Qed.

(** X8. A locator supplied in the props overrides the default one
    entirely: the selection does not depend on the default branch name. *)
Theorem uiStateSelector_override_ignores_default
    (h : heap) (state : value) (p : TProps) (f : UIStateBranchSelector)
    (other : string) :
  props_uiStateBranchSelector p = Func f →
  uiStateBranchSelector other h state (Some p)
    = uiStateBranchSelector DEFAULT_BRANCH_NAME h state (Some p) ∧
  uiStateSelector other h state (Some p)
    = uiStateSelector DEFAULT_BRANCH_NAME h state (Some p).
Proof.
  intros Hf.
  assert (Hb : uiStateBranchSelector other h state (Some p)
               = uiStateBranchSelector DEFAULT_BRANCH_NAME h state (Some p)).
  { unfold uiStateBranchSelector, createSelector2,
      uiStateBranchSelectorSelector, js_or, props_and.
    by rewrite Hf. }
  split; [exact Hb|].
  unfold uiStateSelector, createSelector2, uiStateComponentsSelector,
    createSelector1.
  by rewrite Hb.
Qed.

(** X9. A truthy [uiStateBranchSelector] prop that is not a function is
    not replaced by the default locator: calling it raises a
    [TypeError], in branch selection and in per-id selection alike. *)
Theorem nonfunction_locator_is_TypeError
    (h : heap) (state : value) (p : TProps) (v : value) :
  props_uiStateBranchSelector p = Data v →
  toBoolean v = true →
  uiStateBranchSelector DEFAULT_BRANCH_NAME h state (Some p) = throw TypeError ∧
  uiStateSelector DEFAULT_BRANCH_NAME h state (Some p) = throw TypeError.
Proof.
  intros Hp Hv.
  assert (Hb : uiStateBranchSelector DEFAULT_BRANCH_NAME h state (Some p)
               = throw TypeError).
  { rewrite uiStateBranchSelector_unfold.
    unfold uiStateBranchSelectorSelector, js_or, props_and.
    rewrite Hp. simpl. by rewrite Hv. }
  split; [exact Hb|].
  unfold uiStateSelector, createSelector2, uiStateComponentsSelector,
    createSelector1.
  by rewrite Hb.
Qed.

(** X10. With the default locator, a state tree that is [undefined] or
    [null] gives a [TypeError], while a state object literal that has no
    property under the default branch name, a name that is not inherited
    from [Object.prototype], gives the configuration error. *)
Theorem default_locator_failures
    (h : heap) (state : value) (props : option TProps) :
  truthy (props_and props props_uiStateBranchSelector) = false →
  (state = VUndefined ∨ state = VNull →
     uiStateBranchSelector DEFAULT_BRANCH_NAME h state props = throw TypeError) ∧
  (∀ l o, state = VObject l → objects h !! l = Some o →
     o !! DEFAULT_BRANCH_NAME = None →
     protos h !! l = None →
     inheritedName DEFAULT_BRANCH_NAME = false →
     uiStateBranchSelector DEFAULT_BRANCH_NAME h state props
       = throw (Error branch_error_message)).
Proof.
  intros Hfalsy. rewrite uiStateBranchSelector_unfold.
  rewrite (default_locator_chosen state props Hfalsy).
  unfold selectBranch, defaultUIStateBranchSelector. split.
  - by intros [-> | ->].
  - intros l o -> Hl Hmissing Hplain Hname.
    by rewrite (get_plain_absent h l o DEFAULT_BRANCH_NAME).
Qed.
End MoreSelectorProperties.

Section SelectionProperties.
Context {TProps : Type} `{!UIStateProps TProps}.
Variable DEFAULT_BRANCH_NAME : string.

(** X11. A selected branch that is an object literal without a
    [components] property is not an error for components selection,
    which returns [undefined]; per-id selection then throws: the
    configuration error when the [uiStateId] prop is falsy, a [TypeError]
    from the lookup otherwise. *)
Theorem missing_components_map
    (h : heap) (state : value) (p : TProps)
    (w : list string) (lb : loc) (br : gmap string value) :
  uiStateBranchSelector DEFAULT_BRANCH_NAME h state (Some p)
    = Run w (Return (VObject lb)) →
  objects h !! lb = Some br →
  br !! "components" = None →
  protos h !! lb = None →
  uiStateComponentsSelector DEFAULT_BRANCH_NAME h state (Some p)
    = Run w (Return VUndefined) ∧
  uiStateSelector DEFAULT_BRANCH_NAME h state (Some p)
    = Run w (Throw (if truthy (props_uiStateId p) then TypeError
                    else Error id_error_message)).
Proof.
  intros Hb Hlb Hmissing Hplain.
  assert (Hc : uiStateComponentsSelector DEFAULT_BRANCH_NAME h state (Some p)
               = Run w (Return VUndefined)).
  { unfold uiStateComponentsSelector, createSelector1.
    rewrite Hb, bind_return.
    rewrite (get_plain_absent h lb br "components") by done.
    simpl. by rewrite (right_id_L [] (++)). }
  split; [exact Hc|].
  unfold uiStateSelector, createSelector2. rewrite Hc, bind_return.
  unfold idSelector.
  destruct (truthy (props_uiStateId p)); simpl;
    by rewrite (right_id_L [] (++)).
Qed.

(** X13. An id that is neither a function nor a string: a falsy one is
    rejected with the configuration error, a truthy one (a non-zero
    number, [true], an object) passes the guard and resolves to
    [undefined] without error.  A string literal that passes the guard
    is returned as it is. *)
Theorem idSelector_on_data_id (state : value) (p : TProps) (v : value) :
  props_uiStateId p = Data v →
  idSelector state (Some p)
    = if toBoolean v then mret (if isString v then v else VUndefined)
      else throw (Error id_error_message).
Proof.
  intros Hv. unfold idSelector. rewrite Hv. simpl.
  destruct (toBoolean v); simpl; [|done].
  unfold getStringFromId. by destruct v.
Qed.

(** X14. The result function of per-id selection warns exactly when the
    value it returns is falsy, so that a stored [0], empty string,
    [false] or [null] is reported like a missing entry; it throws only a
    [TypeError], and only when the components value is [undefined] or
    [null]. *)
Theorem selectUIState_warns_iff_falsy (h : heap) (components i : value) :
  match result (selectUIState h components i) with
  | Return v =>
      console (selectUIState h components i)
        = (if toBoolean v then [] else [undefined_state_warning i]) ∧
      components ≠ VUndefined ∧ components ≠ VNull
  | Throw e =>
      e = TypeError ∧ console (selectUIState h components i) = [] ∧
      (components = VUndefined ∨ components = VNull)
  end.
Proof.
  unfold selectUIState.
  destruct components as [| |b|n|s|l|bn]; simpl; auto;
    match goal with
    | |- context [toBoolean ?x] => destruct (toBoolean x) eqn:Hx
    end; simpl; rewrite ?Hx; repeat split; done.
Qed.

(** X15. End to end on a store of the default shape: with a state object
    that holds the branch under the default name, a branch that holds the
    components map, a components map that is an object literal, no
    locator in the props and a [uiStateId] that passes the guard and does
    not resolve to a name inherited from [Object.prototype], per-id
    selection returns the entry stored under the resolved id
    ([undefined] when there is none) and warns exactly when that value is
    falsy. *)
Theorem uiStateSelector_default_store
    (h : heap) (ls lb lc : loc) (st br comps : gmap string value) (p : TProps) :
  objects h !! ls = Some st →
  st !! DEFAULT_BRANCH_NAME = Some (VObject lb) →
  objects h !! lb = Some br →
  br !! "components" = Some (VObject lc) →
  objects h !! lc = Some comps →
  protos h !! lc = None →
  truthy (props_uiStateBranchSelector p) = false →
  truthy (props_uiStateId p) = true →
  let i := getStringFromId (props_uiStateId p) p in
  inheritedName (toString i) = false →
  let v := default VUndefined (comps !! toString i) in
  uiStateSelector DEFAULT_BRANCH_NAME h (VObject ls) (Some p)
    = Run (if toBoolean v then [] else [undefined_state_warning i]) (Return v).
Proof.
  intros Hls Hst Hlb Hbr Hlc Hplain Hloc Hid i Hname v.
  unfold uiStateSelector, createSelector2, uiStateComponentsSelector,
    createSelector1, uiStateBranchSelector, createSelector2, stateSelector.
  rewrite !ret_bind.
  unfold uiStateBranchSelectorSelector, js_or, props_and. rewrite Hloc.
  unfold selectBranch, defaultUIStateBranchSelector.
  rewrite (get_own h ls st DEFAULT_BRANCH_NAME _ Hls Hst), ret_bind.
  cbn [toBoolean negb]. rewrite ret_bind.
  rewrite (get_own h lb br "components" _ Hlb Hbr), ret_bind.
  unfold idSelector. rewrite Hid. cbn [negb]. rewrite ret_bind.
  rewrite (selectUIState_object h lc). fold i. cbv zeta.
  assert (Hv : lookup_prop h lc (toString i) = v).
  { unfold v. destruct (comps !! toString i) as [x|] eqn:Hx.
    - by apply (lookup_prop_own h lc comps).
    - by apply (lookup_prop_plain_absent h lc comps). }
  by rewrite Hv.
Qed.

Lemma selectBranch_default_weaken (h h' : heap) (state : value) :
  closed h → heap_le h h' → allocated h state →
  selectBranch h' (Func (defaultUIStateBranchSelector DEFAULT_BRANCH_NAME)) state
  = selectBranch h (Func (defaultUIStateBranchSelector DEFAULT_BRANCH_NAME)) state.
Proof.
  intros Hclosed Hsub Hstate. unfold selectBranch, defaultUIStateBranchSelector.
  by rewrite (get_weaken h h').
Qed.

Lemma selectBranch_default_allocated (h : heap) (state b : value) :
  closed h →
  result (selectBranch h (Func (defaultUIStateBranchSelector DEFAULT_BRANCH_NAME))
            state) = Return b →
  allocated h b.
Proof.
  intros Hclosed. unfold selectBranch, defaultUIStateBranchSelector.
  pose proof (get_allocated h state DEFAULT_BRANCH_NAME) as Hget.
  destruct (get h state DEFAULT_BRANCH_NAME) as [w [x|e]]; [|done].
  rewrite bind_return.
  destruct (toBoolean x); simpl; [|done].
  intros [= <-]. by apply Hget.
Qed.

(** Selection with the default locator reads the same in a larger
    store. *)
Lemma uiStateSelector_weaken (h h' : heap) (state : value) (props : option TProps) :
  closed h → heap_le h h' → allocated h state →
  truthy (props_and props props_uiStateBranchSelector) = false →
  uiStateSelector DEFAULT_BRANCH_NAME h' state props
  = uiStateSelector DEFAULT_BRANCH_NAME h state props.
Proof.
  intros Hclosed Hsub Hstate Hloc.
  unfold uiStateSelector, createSelector2, uiStateComponentsSelector,
    createSelector1.
  rewrite !uiStateBranchSelector_unfold.
  rewrite (default_locator_chosen DEFAULT_BRANCH_NAME state props Hloc).
  rewrite (selectBranch_default_weaken h h' state Hclosed Hsub Hstate).
  pose proof (selectBranch_default_allocated h state) as Hbranch.
  set (branch := selectBranch h _ state) in *.
  assert (Hcomps :
    branch ≫= (λ b, get h' b "components") = branch ≫= (λ b, get h b "components")).
  { apply bind_ext_result. intros b Hb. apply get_weaken; [done..|].
    by apply Hbranch. }
  rewrite Hcomps.
  apply bind_ext_result. intros c Hc.
  assert (Hcalloc : allocated h c).
  { destruct branch as [w [b|e]]; [|done].
    rewrite bind_return in Hc. simpl in Hc.
    by apply (get_allocated h b "components"). }
  apply bind_ext_result. intros i _.
  unfold selectUIState. by rewrite (get_weaken h h').
Qed.

(** X16. A merge does not disturb selection: in a closed store, on a
    state tree that is not dangling and with the default locator, per-id
    selection returns in the store left by [merge] what it returned
    before. *)
Theorem uiStateSelector_after_merge
    (h : heap) (state : value) (props : option TProps) (obj1 obj2 : value) :
  closed h → allocated h state →
  truthy (props_and props props_uiStateBranchSelector) = false →
  uiStateSelector DEFAULT_BRANCH_NAME (merge h obj1 obj2).1 state props
  = uiStateSelector DEFAULT_BRANCH_NAME h state props.
Proof.
  intros Hclosed Hstate Hloc.
  apply uiStateSelector_weaken; try done. apply merge_le.
Qed.

(** X17. [defaultMapStateToProps] does no validation: on a state object
    it returns a new object whose only property, [uiStateBranch], is the
    value that reading the default branch name gives, the stored one
    when the object has it, [undefined] when an object literal has none
    and the name is not inherited; it throws, a [TypeError], only on an
    [undefined] or [null] state. *)
Theorem defaultMapStateToProps_returns
    (h : heap) (ls : loc) (st : gmap string value) :
  objects h !! ls = Some st →
  (∃ l, objects h !! l = None ∧
        defaultMapStateToProps DEFAULT_BRANCH_NAME h (VObject ls)
        = mret (Heap (<[l := {[ "uiStateBranch" :=
                                  lookup_prop h ls DEFAULT_BRANCH_NAME ]}]>
                        (objects h))
                     (delete l (protos h)),
                VObject l)) ∧
  (∀ v, st !! DEFAULT_BRANCH_NAME = Some v →
        lookup_prop h ls DEFAULT_BRANCH_NAME = v) ∧
  (st !! DEFAULT_BRANCH_NAME = None → protos h !! ls = None →
   inheritedName DEFAULT_BRANCH_NAME = false →
   lookup_prop h ls DEFAULT_BRANCH_NAME = VUndefined) ∧
  defaultMapStateToProps DEFAULT_BRANCH_NAME h VUndefined = throw TypeError ∧
  defaultMapStateToProps DEFAULT_BRANCH_NAME h VNull = throw TypeError.
Proof.
  intros Hls. split; [|split; [|split; [|done]]].
  - exists (fresh (dom (objects h))). split; [apply fresh_objects|].
    unfold defaultMapStateToProps, defaultUiBranchSelector, get.
    by rewrite ret_bind.
  - intros v Hv. by apply (lookup_prop_own h ls st).
  - intros Hnone Hplain Hname. by apply (lookup_prop_plain_absent h ls st).
Qed.
End SelectionProperties.

Section IdCollisions.
Context {TProps : Type} `{!UIStateProps TProps}.
Variable DEFAULT_BRANCH_NAME : string.

(** X12. Per-id selection uses the resolved id only through its string
    form: two components with the same locator whose ids resolve to
    values with the same conversion to a string select the same entry,
    so that an id function returning [undefined] reads the entry of the
    literal id "undefined". *)
Theorem uiStateSelector_ids_collide
    (h : heap) (state : value) (props1 props2 : option TProps) (i1 i2 : value) :
  uiStateBranchSelectorSelector DEFAULT_BRANCH_NAME state props1
    = uiStateBranchSelectorSelector DEFAULT_BRANCH_NAME state props2 →
  idSelector state props1 = mret i1 →
  idSelector state props2 = mret i2 →
  toString i1 = toString i2 →
  uiStateSelector DEFAULT_BRANCH_NAME h state props1
    = uiStateSelector DEFAULT_BRANCH_NAME h state props2.
Proof.
  intros Hsel Hid1 Hid2 Hkey.
  unfold uiStateSelector, createSelector2, uiStateComponentsSelector,
    createSelector1, uiStateBranchSelector, createSelector2, stateSelector.
  rewrite Hsel, Hid1, Hid2.
  apply bind_ext_result. intros c _. rewrite !ret_bind.
  unfold selectUIState, undefined_state_warning. by rewrite Hkey.
Qed.
End IdCollisions.

Lemma uiStateSelector_ids_collide_witness :
  uiStateSelector "uiState" sampleHeap (VObject 1) (Some (keyedId VUndefined))
    = uiStateSelector "uiState" sampleHeap (VObject 1)
        (Some (literalId (VString "undefined"))).
Proof.
  apply (uiStateSelector_ids_collide "uiState" sampleHeap (VObject 1)
           (Some (keyedId VUndefined)) (Some (literalId (VString "undefined")))
           VUndefined (VString "undefined"));
    reflexivity.
Defined.

(** ** The further properties on the sample store *)

Lemma uiStateBranchSelector_returns_truthy_witness :
  toBoolean (VObject 2) = true ∧ VObject 2 ≠ VUndefined ∧ VObject 2 ≠ VNull.
Proof.
  apply (uiStateBranchSelector_returns_truthy "uiState" sampleHeap (VObject 1)
           (Some (literalId (VString "a")))).
  reflexivity.
Defined.

Lemma uiStateSelector_branch_error_first_witness :
  uiStateSelector "uiState" sampleHeap (VObject 7) (Some (literalId (VString "")))
    = Run [] (Throw (Error branch_error_message)).
Proof.
  apply (uiStateSelector_branch_error_first "uiState" sampleHeap (VObject 7)
           (Some (literalId (VString "")))).
  reflexivity.
Defined.

Lemma uiStateSelector_override_ignores_default_witness :
  uiStateBranchSelector "elsewhere" sampleHeap (VObject 1)
      (Some (locatedId (VString "a")))
    = uiStateBranchSelector "uiState" sampleHeap (VObject 1)
        (Some (locatedId (VString "a"))) ∧
  uiStateSelector "elsewhere" sampleHeap (VObject 1)
      (Some (locatedId (VString "a")))
    = uiStateSelector "uiState" sampleHeap (VObject 1)
        (Some (locatedId (VString "a"))).
Proof.
  apply (uiStateSelector_override_ignores_default "uiState" sampleHeap (VObject 1)
           (locatedId (VString "a")) uiLocator "elsewhere").
  reflexivity.
Defined.

Lemma nonfunction_locator_is_TypeError_witness :
  let p := {| sample_uiStateId := Some (VString "a");
              sample_key := VUndefined;
              sample_uiStateBranchSelector := Data (VString "uiState") |} in
  uiStateBranchSelector "uiState" sampleHeap (VObject 1) (Some p) = throw TypeError ∧
  uiStateSelector "uiState" sampleHeap (VObject 1) (Some p) = throw TypeError.
Proof.
  apply (nonfunction_locator_is_TypeError "uiState" sampleHeap (VObject 1)
           {| sample_uiStateId := Some (VString "a");
              sample_key := VUndefined;
              sample_uiStateBranchSelector := Data (VString "uiState") |}
           (VString "uiState"));
    reflexivity.
Defined.

Lemma default_locator_failures_witness :
  uiStateBranchSelector "uiState" sampleHeap VUndefined (None : option SampleProps)
    = throw TypeError ∧
  uiStateBranchSelector "uiState" sampleHeap (VObject 7) (None : option SampleProps)
    = throw (Error branch_error_message).
Proof.
  split.
  - destruct (default_locator_failures "uiState" sampleHeap VUndefined
                (None : option SampleProps)) as [Hnullish _];
      [reflexivity|].
    apply Hnullish. by left.
  - destruct (default_locator_failures "uiState" sampleHeap (VObject 7)
                (None : option SampleProps)) as [_ Hmissing];
      [reflexivity|].
    apply (Hmissing 7%positive ∅); reflexivity.
Defined.

(** A store whose branch, at reference 2, has no components map. *)
Lemma missing_components_map_witness :
  let h : heap := Heap {[ 1%positive := {[ "uiState" := VObject 2 ]};
                          2%positive := ∅ ]} ∅ in
  uiStateComponentsSelector "uiState" h (VObject 1) (Some (literalId (VString "a")))
    = Run [] (Return VUndefined) ∧
  uiStateSelector "uiState" h (VObject 1) (Some (literalId (VString "a")))
    = Run [] (Throw TypeError).
Proof.
  refine (missing_components_map "uiState"
            (Heap {[ 1%positive := {[ "uiState" := VObject 2 ]}; 2%positive := ∅ ]}
                  ∅)
            (VObject 1) (literalId (VString "a")) [] 2 ∅ _ _ _ _);
    reflexivity.
Defined.

Lemma idSelector_on_data_id_witness :
  idSelector (VObject 1) (Some (literalId (VNumber 5))) = mret VUndefined.
Proof.
  apply (idSelector_on_data_id (VObject 1) (literalId (VNumber 5)) (VNumber 5)).
  reflexivity.
Defined.

Lemma uiStateSelector_default_store_witness :
  uiStateSelector "uiState" sampleHeap (VObject 1) (Some (literalId (VString "b")))
    = Run [] (Return (VObject 5)).
Proof.
  refine (uiStateSelector_default_store "uiState" sampleHeap 1 2 3
            {[ "uiState" := VObject 2 ]} {[ "components" := VObject 3 ]}
            {[ "a" := VObject 4; "b" := VObject 5 ]} (literalId (VString "b"))
            _ _ _ _ _ _ _ _ _);
    reflexivity.
Defined.

Lemma uiStateSelector_after_merge_witness :
  uiStateSelector "uiState" (merge sampleHeap (VObject 4) (VObject 6)).1
      (VObject 1) (Some (literalId (VString "a")))
    = uiStateSelector "uiState" sampleHeap (VObject 1)
        (Some (literalId (VString "a"))).
Proof.
  apply (uiStateSelector_after_merge "uiState" sampleHeap (VObject 1)
           (Some (literalId (VString "a"))) (VObject 4) (VObject 6)).
  - apply (bool_decide_unpack _). vm_compute. exact I.
  - vm_compute. eauto.
  - reflexivity.
Defined.

Lemma defaultMapStateToProps_returns_witness :
  (∃ l, objects sampleHeap !! l = None ∧
        defaultMapStateToProps "uiState" sampleHeap (VObject 1)
        = mret (Heap (<[l := {[ "uiStateBranch" :=
                                  lookup_prop sampleHeap 1 "uiState" ]}]>
                        (objects sampleHeap))
                     (delete l (protos sampleHeap)),
                VObject l)) ∧
  (∀ v, ({[ "uiState" := VObject 2 ]} : gmap string value) !! "uiState" = Some v →
        lookup_prop sampleHeap 1 "uiState" = v) ∧
  (({[ "uiState" := VObject 2 ]} : gmap string value) !! "uiState" = None →
   protos sampleHeap !! 1%positive = None →
   inheritedName "uiState" = false →
   lookup_prop sampleHeap 1 "uiState" = VUndefined) ∧
  defaultMapStateToProps "uiState" sampleHeap VUndefined = throw TypeError ∧
  defaultMapStateToProps "uiState" sampleHeap VNull = throw TypeError.
Proof.
  apply (defaultMapStateToProps_returns "uiState" sampleHeap 1).
  reflexivity.
Defined.

(** The old helper does not complain about a missing branch, where
    branch selection does. *)
Example defaultMapStateToProps_sample :
  result (defaultMapStateToProps "uiState" sampleHeap (VObject 7))
    = Return (Heap (<[8%positive := {[ "uiStateBranch" := VUndefined ]}]>
                      (objects sampleHeap))
                   ∅,
              VObject 8) ∧
  throws (uiStateBranchSelector "uiState" sampleHeap (VObject 7)
            (None : option SampleProps)) = true.
Proof. split; vm_compute; reflexivity. Qed.

(** ** Inherited properties *)

(** Reads reach the prototype: a branch name that every object inherits
    is found on a state object that has no such property of its own, and
    a branch finds the components map of its prototype. *)
Lemma default_locator_inherited_name :
  objects sampleHeap !! 7%positive = Some ∅ ∧
  uiStateBranchSelector "constructor" sampleHeap (VObject 7) (None : option SampleProps)
    = Run [] (Return (VBuiltin "Object")).
Proof. split; vm_compute; reflexivity. Qed.

Lemma inherited_components_map :
  let h : heap := Heap {[ 1%positive := {[ "uiState" := VObject 2 ]};
                          2%positive := ∅;
                          3%positive := {[ "components" := VObject 4 ]};
                          4%positive := ∅ ]}
                       {[ 2%positive := VObject 3 ]} in
  objects h !! 2%positive = Some ∅ ∧
  uiStateComponentsSelector "uiState" h (VObject 1) (Some (literalId (VString "a")))
    = Run [] (Return (VObject 4)).
Proof. split; vm_compute; reflexivity. Qed.
